(** * qparams: decoding URL query parameters into annotated struct fields

    A shallow embedding of [qparams.go] (package [qparams]) and of the parts
    of the Go standard library it calls ([strings], [strconv], [reflect],
    [net/url]), followed by the properties of the decoder.

    Go strings are byte sequences: they are modelled by [string], whose
    characters are the 256 values of [ascii]. Go's [int] is modelled by [Z]
    with the range check of [strconv] written out. A Go map is a [gmap];
    the unspecified iteration order of [range] over a map is an explicit
    argument of the loop. A run-time panic is an outcome of its own. *)

From Stdlib Require Import ZArith Ascii String Lia Floats.SpecFloat.
From stdpp Require Import base option list strings gmap fin_maps.

Local Open Scope Z_scope.
Local Open Scope stdpp_scope.

#[local] Arguments String.append !_ _ / : simpl nomatch.

(** ** Outcomes: normal return or panic *)

Inductive Outcome (A : Type) : Type :=
| Returned (a : A)
| Panicked (why : string).
Arguments Returned {A} a.
Arguments Panicked {A} why.

Definition obind {A B} (m : Outcome A) (k : A → Outcome B) : Outcome B :=
  match m with
  | Returned a => k a
  | Panicked why => Panicked why
  end.

Notation "x ←! m ; k" := (obind m (λ x, k))
  (at level 20, m at level 100, k at level 200, right associativity,
   format "x  ←!  m ;  '/' k").
Notation "' p ←! m ; k" := (obind m (λ x, match x with p => k end))
  (at level 20, p pattern, m at level 100, k at level 200,
   right associativity).


(** ** Bytes *)

Definition byteVal (c : ascii) : N := N_of_ascii c.

(** [c < utf8.RuneSelf] *)
Definition isASCIIByte (c : ascii) : bool := (byteVal c <? 128)%N.

Fixpoint isASCII (s : string) : bool :=
  match s with
  | EmptyString => true
  | String c s' => isASCIIByte c && isASCII s'
  end.

(** ['A' <= c && c <= 'Z'], then [c += 'a' - 'A'] *)
Definition lowerByte (c : ascii) : ascii :=
  if ((65 <=? byteVal c) && (byteVal c <=? 90))%N
  then ascii_of_N (byteVal c + 32)
  else c.

Fixpoint mapBytes (f : ascii → ascii) (s : string) : string :=
  match s with
  | EmptyString => EmptyString
  | String c s' => String (f c) (mapBytes f s')
  end.

Fixpoint containsByte (set : string) (c : ascii) : bool :=
  match set with
  | EmptyString => false
  | String d set' => bool_decide (c = d) || containsByte set' c
  end.

(** [s[:n]] and [s[n:]], clipped to the length of [s]. *)
Fixpoint sliceTo (n : nat) (s : string) : string :=
  match n, s with
  | S n', String c s' => String c (sliceTo n' s')
  | _, _ => EmptyString
  end.

Fixpoint sliceFrom (n : nat) (s : string) : string :=
  match n, s with
  | S n', String _ s' => sliceFrom n' s'
  | _, _ => s
  end.

Fixpoint trimLeftBytes (inSet : ascii → bool) (s : string) : string :=
  match s with
  | EmptyString => EmptyString
  | String c s' => if inSet c then trimLeftBytes inSet s' else s
  end.

Fixpoint trimRightBytes (inSet : ascii → bool) (s : string) : string :=
  match s with
  | EmptyString => EmptyString
  | String c s' =>
      match trimRightBytes inSet s' with
      | EmptyString => if inSet c then EmptyString else String c EmptyString
      | t => String c t
      end
  end.

(** [url.Values], a [map[string][]string]. *)
Abbreviation Values := (gmap string (list string)).

(** Routines that leave their argument alone. On ASCII input the rune-level
    routines of [strings] are not reached, and the checks on ASCII inputs at
    the end of the file take these for them; [noFloat] rejects every
    input. *)
Definition asciiToLower (s : string) : string := s.
Definition asciiTrim (s cutset : string) : string := s.
Definition asciiExplode (s : string) : list string := [s].
Definition noFloat (s : string) (bitSize : Z) : option spec_float := None.

(** ** Package [strings]

    The functions are exact on bytes. Where Go decodes UTF-8 (a string or a
    cutset with a byte outside ASCII), the rune-level routine is an argument
    of the model: [unicodeToLower] is [strings.Map(unicode.ToLower, s)],
    [trimRunes] is the rune-by-rune [strings.Trim], [explodeRunes] splits a
    string into its UTF-8 sequences. [ParseFloat] is [strconv.ParseFloat];
    its result, a float64, is a [spec_float]. *)

Section Qparams.

Variable unicodeToLower : string → string.
Variable trimRunes : string → string → string.
Variable explodeRunes : string → list string.
Variable ParseFloat : string → Z → option spec_float.

(** [strings.ToLower]: the ASCII fast path lower-cases byte by byte. *)
Definition strings_ToLower (s : string) : string :=
  if isASCII s then mapBytes lowerByte s else unicodeToLower s.

(** [strings.Trim(s, cutset)]: leading and trailing code points contained
    in [cutset] are removed. *)
Definition strings_Trim (s cutset : string) : string :=
  if bool_decide (s = "") || bool_decide (cutset = "") then s
  else if isASCII cutset
       then trimLeftBytes (containsByte cutset)
              (trimRightBytes (containsByte cutset) s)
       else trimRunes s cutset.

(** [strings.HasPrefix(s, prefix)] *)
Fixpoint strings_HasPrefix (s prefix : string) : bool :=
  match prefix, s with
  | EmptyString, _ => true
  | String a prefix', String b s' =>
      bool_decide (a = b) && strings_HasPrefix s' prefix'
  | _, _ => false
  end.

(** [strings.Index(s, substr)]: the byte index of the first instance of
    [substr] in [s]; [None] stands for -1. *)
Fixpoint strings_Index (s substr : string) : option nat :=
  if strings_HasPrefix s substr then Some 0%nat
  else match s with
       | EmptyString => None
       | String _ s' => S <$> strings_Index s' substr
       end.

Definition strings_Contains (s substr : string) : bool :=
  bool_decide (is_Some (strings_Index s substr)).

(** The loop of [genSplit]: cut at each successive instance of [sep]. Every
    cut consumes at least one byte of [s] when [sep] is not empty, so
    [String.length s] rounds are enough (lemma [genSplit_fuel]). *)
Fixpoint genSplit (fuel : nat) (s sep : string) : list string :=
  match fuel with
  | O => [s]
  | S fuel' =>
      match strings_Index s sep with
      | None => [s]
      | Some m =>
          sliceTo m s :: genSplit fuel' (sliceFrom (m + String.length sep) s) sep
      end
  end.

(** [strings.Split(s, sep)] *)
Definition strings_Split (s sep : string) : list string :=
  if bool_decide (sep = "") then explodeRunes s
  else genSplit (String.length s) s sep.

(** [strings.Join(elems, sep)] *)
Fixpoint strings_Join (elems : list string) (sep : string) : string :=
  match elems with
  | [] => ""
  | [e] => e
  | e :: rest => e +:+ sep +:+ strings_Join rest sep
  end.

(** ** Package [strconv] *)

(** [strconv.IntSize]: the size in bits of an [int], on a 64-bit target. *)
Definition IntSize : Z := 64.

Definition digitVal (c : ascii) : option Z :=
  if ((48 <=? byteVal c) && (byteVal c <=? 57))%N
  then Some (Z.of_N (byteVal c) - 48)
  else None.

Fixpoint parseDigits (acc : Z) (s : string) : option Z :=
  match s with
  | EmptyString => Some acc
  | String c s' =>
      match digitVal c with
      | Some d => parseDigits (acc * 10 + d) s'
      | None => None
      end
  end.

(** [strconv.ParseInt(s, 10, bitSize)]: an optional sign, then at least one
    decimal digit and nothing else; the value must fit [bitSize] bits
    (bit size 0 is [IntSize]). [None] is any non-nil error. *)
Definition ParseInt10 (s : string) (bitSize : Z) : option Z :=
  let bits := if bitSize =? 0 then IntSize else bitSize in
  let cutoff := 2 ^ (bits - 1) in
  match s with
  | EmptyString => None
  | String c rest =>
      let '(neg, body) :=
        if bool_decide (c = "+"%char) then (false, rest)
        else if bool_decide (c = "-"%char) then (true, rest)
        else (false, s) in
      match body with
      | EmptyString => None
      | _ =>
          match parseDigits 0 body with
          | None => None
          | Some n =>
              if neg then (if n <=? cutoff then Some (- n) else None)
              else (if n <? cutoff then Some n else None)
          end
      end
  end.

(** [strconv.Atoi(s)] is [ParseInt(s, 10, 0)] converted to [int]. *)
Definition Atoi (s : string) : option Z := ParseInt10 s 0.

(** ** Package [reflect]: types *)

Inductive Kind : Set :=
| KBool | KInt | KInt32 | KInt64 | KFloat32 | KFloat64 | KString
| KSlice | KMap | KPtr | KStruct.

#[global] Instance Kind_eq_dec : EqDecision Kind.
Proof. solve_decision. Defined.

(** Go types as far as [Parse] inspects them. [TBool] stands for the kinds
    that [Parse] does not dispatch on; the fields of a struct type are kept
    with the struct's data ([Iface]), not in the type. *)
Inductive Typ : Set :=
| TBool | TInt | TInt32 | TInt64 | TFloat32 | TFloat64 | TString
| TSliceOf (elem : Typ)
| TMapOf (key elem : Typ)
| TPtrTo (elem : Typ)
| TStruct
| TDefined (pkg name : string) (underlying : Typ).

#[global] Instance Typ_eq_dec : EqDecision Typ.
Proof. solve_decision. Defined.

Fixpoint underlying (t : Typ) : Typ :=
  match t with
  | TDefined _ _ u => underlying u
  | _ => t
  end.

(** [Type.Kind()] *)
Definition typeKind (t : Typ) : Kind :=
  match underlying t with
  | TBool => KBool
  | TInt => KInt
  | TInt32 => KInt32
  | TInt64 => KInt64
  | TFloat32 => KFloat32
  | TFloat64 => KFloat64
  | TString => KString
  | TSliceOf _ => KSlice
  | TMapOf _ _ => KMap
  | TPtrTo _ => KPtr
  | TStruct | TDefined _ _ _ => KStruct
  end.

(** [Type.Name()]: the name of a defined or predeclared type, empty for the
    others. *)
Definition typeName (t : Typ) : string :=
  match t with
  | TBool => "bool"
  | TInt => "int"
  | TInt32 => "int32"
  | TInt64 => "int64"
  | TFloat32 => "float32"
  | TFloat64 => "float64"
  | TString => "string"
  | TDefined _ name _ => name
  | _ => ""
  end.

(** [Type.String()]: defined types are qualified by their package. *)
Fixpoint typeString (t : Typ) : string :=
  match t with
  | TSliceOf e => "[]" +:+ typeString e
  | TMapOf k e => "map[" +:+ typeString k +:+ "]" +:+ typeString e
  | TPtrTo e => "*" +:+ typeString e
  | TStruct => "struct {}"
  | TDefined pkg name _ => pkg +:+ "." +:+ name
  | _ => typeName t
  end.

(** [Type.Elem()] and [Type.Key()]; [None] where Go panics. *)
Definition typeElem (t : Typ) : option Typ :=
  match underlying t with
  | TSliceOf e | TMapOf _ e | TPtrTo e => Some e
  | _ => None
  end.

Definition typeKey (t : Typ) : option Typ :=
  match underlying t with
  | TMapOf k _ => Some k
  | _ => None
  end.

Definition isNamed (t : Typ) : bool :=
  match t with
  | TSliceOf _ | TMapOf _ _ | TPtrTo _ | TStruct => false
  | _ => true
  end.

(** Assignability of a value of type [v] to a variable of type [t]: the
    types are identical, or their underlying types are identical and one of
    the two is not a named type. *)
Definition assignableTo (v t : Typ) : bool :=
  bool_decide (v = t)
  || (bool_decide (underlying v = underlying t)
      && (negb (isNamed v) || negb (isNamed t))).

(** ** Package [reflect]: values *)

(** What a variable holds. The elements of a slice and the entries of a map
    are kept when they are strings, the only containers [Parse] fills. *)
Inductive Data : Type :=
| DBool (b : bool)
| DInt (n : Z)
| DFloat (x : spec_float)
| DString (s : string)
| DNil
| DSlice (elems : list string)
| DMap (entries : gmap string string).

(** [reflect.Value] *)
Record Value : Type := mkValue {
  vType : Typ;
  vCanSet : bool;
  vData : Data
}.

Definition ValueOf (t : Typ) (d : Data) : Value :=
  {| vType := t; vCanSet := false; vData := d |}.

Definition Value_Kind (v : Value) : Kind := typeKind (vType v).

Definition Value_IsNil (v : Value) : bool :=
  match vData v with DNil => true | _ => false end.

Definition MakeMap (t : Typ) : Value := ValueOf t (DMap ∅).
Definition MakeSlice (t : Typ) : Value := ValueOf t (DSlice []).

(** [v.Set(x)] panics unless [v] is settable and [x] is assignable to the
    type of [v]. *)
Definition Value_Set (v x : Value) : Outcome Value :=
  if negb (vCanSet v)
  then Panicked
         "reflect: reflect.Value.Set using value obtained using unexported field"
  else if assignableTo (vType x) (vType v)
       then Returned {| vType := vType v; vCanSet := vCanSet v;
                        vData := vData x |}
       else Panicked ("reflect.Set: value of type " +:+ typeString (vType x)
                      +:+ " is not assignable to type "
                      +:+ typeString (vType v)).

(** [reflect.StructField]. [Tag] lists the [key:"value"] pairs of the struct
    tag in order; a field is exported when [PkgPath] is empty. *)
Record StructField : Type := mkField {
  Name : string;
  PkgPath : string;
  FieldType : Typ;
  Tag : list (string * string)
}.

Definition IsExported (f : StructField) : bool := bool_decide (PkgPath f = "").

(** [StructTag.Get(key)] *)
Fixpoint StructTag_Get (tag : list (string * string)) (key : string) : string :=
  match tag with
  | [] => ""
  | (k, v) :: tag' => if bool_decide (k = key) then v else StructTag_Get tag' key
  end.

(** [v.Elem().Field(i)] for field [f] of the struct [dest] points to. *)
Definition fieldValue (f : StructField) (d : Data) : Value :=
  {| vType := FieldType f; vCanSet := IsExported f; vData := d |}.

(** ** Package [net/url] *)

(** [Values.Get(key)]: the first value of [key], or the empty string. *)
Definition Values_Get (v : Values) (key : string) : string :=
  match v !! key with
  | Some (x :: _) => x
  | _ => ""
  end.

(** ** Package [qparams] *)

(** [type Map map[string]string] and [type Slice []string] *)
Definition Map : Typ := TDefined "qparams" "Map" (TMapOf TString TString).
Definition Slice : Typ := TDefined "qparams" "Slice" (TSliceOf TString).

Definition errMemberInt (v : string) : string :=
  "Could not convert member " +:+ v +:+ " to int".
Definition errMemberFloat (v : string) : string :=
  "Could not convert member " +:+ v +:+ " to float".

(** [Slice.ToIntSlice]: the loop over [s.Slice()], with its two
    variables [newSlice] and [err]. *)
Fixpoint ToIntSlice_range (s : list string) (newSlice : list Z)
    (err : option string) : list Z * option string :=
  match s with
  | [] => (newSlice, err)
  | v :: rest =>
      match Atoi v with
      | None => ToIntSlice_range rest newSlice (Some (errMemberInt v))
      | Some i => ToIntSlice_range rest (newSlice ++ [i]) err
      end
  end.

Definition ToIntSlice (s : list string) : list Z * option string :=
  ToIntSlice_range s [] None.

(** [Slice.ToFloatSlice] *)
Fixpoint ToFloatSlice_range (s : list string) (newSlice : list spec_float)
    (err : option string) : list spec_float * option string :=
  match s with
  | [] => (newSlice, err)
  | v :: rest =>
      match ParseFloat v 64 with
      | None => ToFloatSlice_range rest newSlice (Some (errMemberFloat v))
      | Some f => ToFloatSlice_range rest (newSlice ++ [f]) err
      end
  end.

Definition ToFloatSlice (s : list string) : list spec_float * option string :=
  ToFloatSlice_range s [] None.

(** The errors [Parse] returns: the sentinel [ErrWrongDestType], or a
    [TypeConvErrors] collection of messages. *)
Inductive GoError : Type :=
| ErrWrongDestType
| TypeConvErrors (msgs : list string).

Definition separator : string := ",".
Definition mapOpsTagSeparator : string := ",".

Fixpoint getTag_range (tag : string) (tagSlice : list string) : string :=
  match tagSlice with
  | [] => ""
  | t :: rest =>
      match strings_Split t ":" with
      | [k; v] => if bool_decide (k = tag) then v else getTag_range tag rest
      | _ => getTag_range tag rest
      end
  end.

Definition getTag (tag : string) (sField : StructField) : string :=
  let tags := StructTag_Get (Tag sField) "qparams" in
  if bool_decide (tags = "") then tags
  else getTag_range tag (strings_Split tags " ").

Definition getSeparator (sField : StructField) : string :=
  let s := getTag "sep" sField in
  if bool_decide (s ≠ "") then s else separator.

Definition getOperators (sField : StructField) : list string :=
  let ops := getTag "ops" sField in
  if bool_decide (ops ≠ "") then strings_Split ops mapOpsTagSeparator else [].

(** [strings.TrimSpace] on ASCII white space. *)
Definition trimSpace (s : string) : string :=
  trimLeftBytes Ascii.is_space (trimRightBytes Ascii.is_space s).

(** Modelled from the spec: [walk], the Filter Tokenizer that [parseMap]
    calls, is not among the sources. Filter Tokenizer, step 2: scan the
    operator vocabulary in the order supplied and find the first operator
    that occurs as a substring of the segment. *)
Definition firstOperator (operators : list string) (segment : string)
    : option string :=
  find (λ op, strings_Contains segment op) operators.

(** Modelled from the spec: [walk] is not among the sources. Step 3: split
    the segment at the first occurrence of the chosen operator; the field
    token is lower-cased and trimmed, the operand is used verbatim. A
    segment that matches no operator yields nothing (step 5). The result is
    the triple of field token, operator and operand. *)
Definition walkSegment (operators : list string) (segment : string)
    : option (string * string * string) :=
  match firstOperator operators segment with
  | None => None
  | Some op =>
      match strings_Index segment op with
      | None => None
      | Some i =>
          Some (trimSpace (strings_ToLower (sliceTo i segment)), op,
                sliceFrom (i + String.length op) segment)
      end
  end.

(** The composite key: field token and operator joined by a single space. *)
Definition compositeKey (fieldToken op : string) : string :=
  fieldToken +:+ " " +:+ op.

(** Modelled from the spec: [walk] is not among the sources. Step 4: set or
    overwrite the map entry of the segment. *)
Definition walkEntry (operators : list string) (m : gmap string string)
    (segment : string) : gmap string string :=
  match walkSegment operators segment with
  | Some (fieldToken, op, operand) => <[compositeKey fieldToken op := operand]> m
  | None => m
  end.

(** Modelled from the spec: [walk] is not among the sources. Step 1: split
    the value on the separator and discard the empty segments; then steps 2
    to 5 for each segment in turn. The result is never a nil map. *)
Definition walkSegments (value sep : string) : list string :=
  filter (λ seg, seg ≠ "") (strings_Split value sep).

Definition walk (value sep : string) (operators : list string)
    : gmap string string :=
  foldl (walkEntry operators) ∅ (walkSegments value sep).

(** Modelled from the spec: the static type of the map [walk] returns, a
    map from composite key to operand string. *)
Definition walkType : Typ := TMapOf TString TString.

Definition parseMap (sField : StructField) (fieldV : Value)
    (queryValue : string) : Outcome Value :=
  let sep := getSeparator sField in
  let operators := getOperators sField in
  let parsedMap := walk queryValue sep operators in
  Value_Set fieldV (ValueOf walkType (DMap parsedMap)).

Fixpoint parseSlice_range (slice newSlice : list string) : list string :=
  match slice with
  | [] => newSlice
  | val :: rest =>
      let v := strings_ToLower val in
      if bool_decide (v ≠ "") then parseSlice_range rest (newSlice ++ [v])
      else parseSlice_range rest newSlice
  end.

Definition parseSlice (sField : StructField) (fieldV : Value)
    (queryValue : string) : Outcome Value :=
  let sep := getSeparator sField in
  let slice := strings_Split queryValue sep in
  let newSlice := parseSlice_range slice [] in
  Value_Set fieldV (ValueOf (TSliceOf TString) (DSlice newSlice)).

Definition errInteger (name queryValue : string) : string :=
  "Field " +:+ name +:+ " does not contain a valid integer ("
  +:+ queryValue +:+ ")".
Definition errFloat (name queryValue : string) : string :=
  "Field " +:+ name +:+ " does not contain a valid float ("
  +:+ queryValue +:+ ")".

(** The scalar coercers return the field as they leave it and their error
    ([None] is nil). *)
Definition parseInt (sField : StructField) (fieldV : Value)
    (queryValue : string) : Outcome (Value * option string) :=
  match Atoi queryValue with
  | None => Returned (fieldV, Some (errInteger (Name sField) queryValue))
  | Some i =>
      v ←! Value_Set fieldV (ValueOf TInt (DInt i));
      Returned (v, None)
  end.

Definition parseInt64 (sField : StructField) (fieldV : Value)
    (queryValue : string) : Outcome (Value * option string) :=
  match ParseInt10 queryValue 0 with
  | None => Returned (fieldV, Some (errInteger (Name sField) queryValue))
  | Some i64 =>
      v ←! Value_Set fieldV (ValueOf TInt64 (DInt i64));
      Returned (v, None)
  end.

Definition parseFloat (sField : StructField) (fieldV : Value)
    (queryValue : string) (bitSize : Z) : Outcome (Value * option string) :=
  match ParseFloat queryValue bitSize with
  | None => Returned (fieldV, Some (errFloat (Name sField) queryValue))
  | Some f =>
      v ←! Value_Set fieldV (ValueOf TFloat64 (DFloat f));
      Returned (v, None)
  end.

Definition parseString (sField : StructField) (fieldV : Value)
    (queryValue : string) : Outcome Value :=
  Value_Set fieldV (ValueOf TString (DString queryValue)).

(** [fieldName] of [Parse]: the lower-cased name of the field, or the
    [name] option of its tag when there is one. *)
Definition effectiveName (fieldT : StructField) : string :=
  let tagFieldName := getTag "name" fieldT in
  if bool_decide (tagFieldName ≠ "") then tagFieldName
  else strings_ToLower (Name fieldT).

(** The body of [for key, val := range queryValues] in [Parse]. The state
    is the field and the query map, both written by the body. *)
Definition rangeBody (fieldName sep : string) (key : string)
    (val : list string) (st : Value * Values) : Outcome (Value * Values) :=
  let '(vv, queryValues) := st in
  let key := strings_ToLower key in
  if bool_decide (fieldName ≠ key) then Returned (vv, queryValues)
  else
    let r :=
      match Value_Kind vv with
      | KSlice | KMap => (λ n, strings_Trim n ("," +:+ sep)) <$> val
      | _ => val
      end in
    match Value_Kind vv with
    | KMap =>
        let t := vType vv in
        vv ←! (if Value_IsNil vv then Value_Set vv (MakeMap t)
                else Returned vv);
        match typeKey t, typeElem t with
        | Some k, Some e =>
            if bool_decide (typeName k ≠ "string")
               || bool_decide (typeKind e ≠ KString)
            then Returned (vv, queryValues)
            else Returned (vv, <[key := [strings_Join r ","]]> queryValues)
        | _, _ => Panicked "reflect: Key of non-map type"
        end
    | KSlice =>
        let t := vType vv in
        vv ←! (if Value_IsNil vv then Value_Set vv (MakeSlice t)
                else Returned vv);
        match typeElem t with
        | Some e =>
            if bool_decide (typeString e ≠ "string")
            then Returned (vv, queryValues)
            else Returned (vv, <[key := [strings_Join r sep]]> queryValues)
        | None => Panicked "reflect: Elem of invalid type"
        end
    | _ => Returned (vv, <[key := r]> queryValues)
    end.

(** [range] over the query map. Go leaves the iteration order open, and an
    entry created during the iteration may be produced or skipped: [order]
    lists the keys in the order the loop reaches them, and a key is
    produced when the map holds it at that moment, with its current
    values. *)
Fixpoint rangeValues (order : list string)
    (body : string → list string → Value * Values → Outcome (Value * Values))
    (st : Value * Values) : Outcome (Value * Values) :=
  match order with
  | [] => Returned st
  | key :: rest =>
      match st.2 !! key with
      | None => rangeValues rest body st
      | Some val => st' ←! body key val st; rangeValues rest body st'
      end
  end.

(** An iteration order is admissible for a map when it has no repetition
    and reaches every key the map holds when the loop starts. *)
Definition admissible (order : list string) (queryValues : Values) : Prop :=
  NoDup order ∧ ∀ key, is_Some (queryValues !! key) → key ∈ order.

(** The two [switch] statements that follow the lookup of [queryValue]. *)
Definition bindValue (fieldT : StructField) (fieldV : Value)
    (queryValue : string) : Outcome (Value * option string) :=
  fieldV ←! match Value_Kind fieldV with
             | KMap => parseMap fieldT fieldV queryValue
             | KSlice => parseSlice fieldT fieldV queryValue
             | _ => Returned fieldV
             end;
  match Value_Kind fieldV with
  | KInt | KInt32 => parseInt fieldT fieldV queryValue
  | KInt64 => parseInt64 fieldT fieldV queryValue
  | KFloat64 => parseFloat fieldT fieldV queryValue 64
  | KFloat32 => parseFloat fieldT fieldV queryValue 32
  | KString =>
      v ←! parseString fieldT fieldV queryValue; Returned (v, None)
  | _ => Returned (fieldV, None)
  end.

(** One round of [for i := 0; i < v.Elem().NumField(); i++]: the field as
    the round leaves it, the query map, and the message appended to [errs]
    if any. *)
Definition parseField (order : list string) (fieldT : StructField)
    (fieldV : Value) (queryValues : Values)
    : Outcome (Value * Values * option string) :=
  let fieldName := effectiveName fieldT in
  let sep := getSeparator fieldT in
  '(fieldV, queryValues) ←!
    rangeValues order (rangeBody fieldName sep) (fieldV, queryValues);
  let queryValue := Values_Get queryValues fieldName in
  if bool_decide (queryValue = "") then Returned (fieldV, queryValues, None)
  else
    '(fieldV, err) ←! bindValue fieldT fieldV queryValue;
    Returned (fieldV, queryValues, err).

Definition appendErr (errs : list string) (err : option string) : list string :=
  match err with
  | Some e => errs ++ [e]
  | None => errs
  end.

(** The loop over the fields; [orders i] is the iteration order of the
    query map in round [i]. *)
Fixpoint parseFields (orders : nat → list string) (i : nat)
    (fields : list (StructField * Data)) (queryValues : Values)
    (errs : list string)
    : Outcome (list (StructField * Data) * Values * list string) :=
  match fields with
  | [] => Returned ([], queryValues, errs)
  | (fieldT, d) :: rest =>
      '(fieldV, queryValues, err) ←!
        parseField (orders i) fieldT (fieldValue fieldT d) queryValues;
      '(rest', queryValues, errs) ←!
        parseFields orders (S i) rest queryValues (appendErr errs err);
      Returned ((fieldT, vData fieldV) :: rest', queryValues, errs)
  end.

(** The argument [dest interface{}]: the nil interface, or a value of
    dynamic type [t]. [target] is the struct that the value is or points
    to, as the descriptor and the stored data of each of its fields in
    declaration order; it is [None] for a nil pointer and for a value that
    reaches no struct. *)
Inductive Iface : Type :=
| NilIface
| Dyn (t : Typ) (target : option (list (StructField * Data))).

(** [Parse] returns its error ([None] is nil); [dest] is returned as
    [Parse] leaves it. The query map [r.URL.Query()] is built anew by each
    call and is the argument [queryValues]. *)
Definition Parse (orders : nat → list string) (dest : Iface)
    (queryValues : Values) : Outcome (Iface * option GoError) :=
  match dest with
  | NilIface =>
      Panicked "runtime error: invalid memory address or nil pointer dereference"
  | Dyn t target =>
      if bool_decide (typeKind t ≠ KPtr)
         || bool_decide (typeKind <$> typeElem t ≠ Some KStruct)
      then Returned (dest, Some ErrWrongDestType)
      else
        match target with
        | None => Panicked "reflect: call of reflect.Value.NumField on zero Value"
        | Some fields =>
            '(fields, _, errs) ←! parseFields orders 0 fields queryValues [];
            if bool_decide (errs ≠ [])
            then Returned (Dyn t (Some fields), Some (TypeConvErrors errs))
            else Returned (Dyn t (Some fields), None)
        end
  end.

(** ** Notions used by the statements *)

(** [sub] occurs in [s] as a substring. *)
Definition occursIn (sub s : string) : Prop :=
  ∃ l r, s = l +:+ sub +:+ r.

(** The members of a slice that [conv] cannot convert. *)
Definition failingMembers {A} (conv : string → option A) (s : list string)
    : list string :=
  filter (λ v, conv v = None) s.

(** What one round of [Parse] leaves in the destination and in [errs]. *)
Definition fieldResult (o : Outcome (Value * Values * option string))
    : Outcome (Value * option string) :=
  '(v, _, err) ←! o; Returned (v, err).

(** The message of a scalar field whose raw value does not convert: it
    names the field and the raw value. [None] when the field is not a
    numeric scalar or the raw value converts. *)
Definition scalarFailure (fieldT : StructField) (raw : string) : option string :=
  match typeKind (FieldType fieldT) with
  | KInt | KInt32 =>
      match Atoi raw with
      | Some _ => None
      | None => Some (errInteger (Name fieldT) raw)
      end
  | KInt64 =>
      match ParseInt10 raw 0 with
      | Some _ => None
      | None => Some (errInteger (Name fieldT) raw)
      end
  | KFloat64 =>
      match ParseFloat raw 64 with
      | Some _ => None
      | None => Some (errFloat (Name fieldT) raw)
      end
  | KFloat32 =>
      match ParseFloat raw 32 with
      | Some _ => None
      | None => Some (errFloat (Name fieldT) raw)
      end
  | _ => None
  end.

(** [errs] as [Parse] returns it. *)
Definition aggregate (msgs : list string) : option GoError :=
  if bool_decide (msgs ≠ []) then Some (TypeConvErrors msgs) else None.

(** A list or map type whose elements [Parse] takes for strings: the tests
    of the [range] body that guard the write to the query map. *)
Definition stringShaped (t : Typ) : bool :=
  match typeKind t with
  | KMap =>
      match typeKey t, typeElem t with
      | Some k, Some e =>
          bool_decide (typeName k = "string") && bool_decide (typeKind e = KString)
      | _, _ => false
      end
  | KSlice =>
      match typeElem t with
      | Some e => bool_decide (typeString e = "string")
      | None => false
      end
  | _ => true
  end.

(** The composite key a segment is stored under, if any. *)
Definition segmentKey (operators : list string) (segment : string)
    : option string :=
  (λ '(fieldToken, op, _), compositeKey fieldToken op)
    <$> walkSegment operators segment.

(** The structs of the package's tests: [Embed Slice], and
    [Filter Map] with the tag [qparams:"ops:>,==,<=,<,!=,-like-"]. *)
Definition testEmbed : StructField :=
  {| Name := "Embed"; PkgPath := ""; FieldType := Slice; Tag := [] |}.
Definition testFilter : StructField :=
  {| Name := "Filter"; PkgPath := ""; FieldType := Map;
     Tag := [("qparams", "ops:>,==,<=,<,!=,-like-")] |}.
Definition testStructPtr : Typ := TPtrTo (TDefined "qparams" "testStruct" TStruct).

(** [N int32] and [F float32], two structs with one 32-bit scalar field. *)
Definition testInt32 : StructField :=
  {| Name := "N"; PkgPath := ""; FieldType := TInt32; Tag := [] |}.
Definition testFloat32 : StructField :=
  {| Name := "F"; PkgPath := ""; FieldType := TFloat32; Tag := [] |}.

(** The panic of [Value_Set], by its cause. *)
Definition setPanic (fieldT : StructField) (valueType : Typ) : string :=
  if IsExported fieldT
  then "reflect.Set: value of type " +:+ typeString valueType
       +:+ " is not assignable to type " +:+ typeString (FieldType fieldT)
  else "reflect: reflect.Value.Set using value obtained using unexported field".

(** The kinds of the list and map fields. *)
Definition isContainer (k : Kind) : bool :=
  match k with KSlice | KMap => true | _ => false end.

(** [Age int] and [Name string], the fields of a struct with two scalars. *)
Definition testAge : StructField :=
  {| Name := "Age"; PkgPath := ""; FieldType := TInt; Tag := [] |}.
Definition testName : StructField :=
  {| Name := "Name"; PkgPath := ""; FieldType := TString; Tag := [] |}.

(** Two query maps with the same keys and, under each key, the same first
    value. *)
Definition sameHeads (q1 q2 : Values) : Prop :=
  ∀ k, head <$> (q1 !! k) = head <$> (q2 !! k).

(** What the body of the [range] loop does to a list or map field on a
    matching key: a nil container is replaced by an empty one. *)
Definition allocate (vv : Value) : Outcome Value :=
  match Value_Kind vv with
  | KMap =>
      if Value_IsNil vv then Value_Set vv (MakeMap (vType vv)) else Returned vv
  | KSlice =>
      if Value_IsNil vv then Value_Set vv (MakeSlice (vType vv))
      else Returned vv
  | _ => Returned vv
  end.

(** The effective value of a field for a parameter supplied once, with the
    raw value [x]: trimmed of separators for a list or a map. *)
Definition effectiveValue (fieldT : StructField) (vv : Value) (x : string)
    : string :=
  if isContainer (Value_Kind vv)
  then strings_Trim x ("," +:+ getSeparator fieldT)
  else x.

(** The round of a field whose parameter is supplied once, under a
    matching name, with the raw value [x]. *)
Definition decodeOne (fieldT : StructField) (vv : Value) (x : string)
    : Outcome (Value * option string) :=
  vv ←! allocate vv;
  let queryValue := effectiveValue fieldT vv x in
  if bool_decide (queryValue = "") then Returned (vv, None)
  else bindValue fieldT vv queryValue.

(** [N int] with the tag [qparams:"name:Foo"]. *)
Definition testOverride : StructField :=
  {| Name := "N"; PkgPath := ""; FieldType := TInt;
     Tag := [("qparams", "name:Foo")] |}.

(** [N int] with the tag [qparams:"name:foo"]. *)
Definition testOverrideLower : StructField :=
  {| Name := "N"; PkgPath := ""; FieldType := TInt;
     Tag := [("qparams", "name:foo")] |}.



(** [Filter Map] with the tag [qparams:"sep:| ops:>,==,<=,<,!=,-like-"],
    as in the tests, and [Ids []int]. *)
Definition testFilterSep : StructField :=
  {| Name := "Filter"; PkgPath := ""; FieldType := Map;
     Tag := [("qparams", "sep:| ops:>,==,<=,<,!=,-like-")] |}.
Definition testIds : StructField :=
  {| Name := "Ids"; PkgPath := ""; FieldType := TSliceOf TInt; Tag := [] |}.

(** ** Further notions: the annotation syntax and the error text *)

(** [TypeConvErrors.Error]: the loop [str += fmt.Sprintf("%s\n", e)]. *)
Definition newline : string := String "010"%char EmptyString.

Fixpoint TypeConvErrors_Error_range (e : list string) (str : string) : string :=
  match e with
  | [] => str
  | x :: rest => TypeConvErrors_Error_range rest (str +:+ x +:+ newline)
  end.

Definition TypeConvErrors_Error (e : list string) : string :=
  TypeConvErrors_Error_range e "".

(** [strings.Split] for a separator of one byte, by recursion on the
    string (lemma [strings_Split_byte]). *)
Fixpoint splitByte (c : ascii) (s : string) : list string :=
  match s with
  | EmptyString => [EmptyString]
  | String d s' =>
      if bool_decide (d = c) then EmptyString :: splitByte c s'
      else match splitByte c s' with
           | t :: ts => String d t :: ts
           | [] => [String d EmptyString]
           end
  end.

(** The text of an annotation that lists the options [opts], as the struct
    tags of the tests write it: [option:value] pairs separated by one
    space. *)
Definition encodeOption (o : string * string) : string :=
  o.1 +:+ ":" +:+ o.2.

Definition encodeOptions (opts : list (string * string)) : string :=
  strings_Join (encodeOption <$> opts) " ".

(** The value of the first pair of [opts] whose option is [tag], the empty
    string when there is none. *)
Fixpoint optionValue (tag : string) (opts : list (string * string)) : string :=
  match opts with
  | [] => ""
  | (k, v) :: rest => if bool_decide (k = tag) then v else optionValue tag rest
  end.

(** Neither the option nor its value holds a space or a colon. *)
Definition plainOption (o : string * string) : bool :=
  negb (containsByte o.1 " "%char) && negb (containsByte o.1 ":"%char)
  && negb (containsByte o.2 " "%char) && negb (containsByte o.2 ":"%char).

(** The non-empty lower-cased tokens of [t] split on [sep]: what
    [parseSlice] stores for the value [t]. *)
Definition sliceTokens (sep t : string) : list string :=
  filter (λ v, v ≠ "") (strings_ToLower <$> strings_Split t sep).

(** No entry of the query feeds the field: no name lower-cases to the
    field's effective name, and the effective name is no entry itself. *)
Definition unmatched (fieldT : StructField) (q : Values) : Prop :=
  q !! effectiveName fieldT = None
  ∧ ∀ k, is_Some (q !! k) → strings_ToLower k ≠ effectiveName fieldT.

(** The kinds the two [switch] statements of [Parse] have a case for, and
    those of the scalar coercers that can fail. *)
Definition dispatched (k : Kind) : bool :=
  match k with KBool | KPtr | KStruct => false | _ => true end.

Definition isNumeric (k : Kind) : bool :=
  match k with
  | KInt | KInt32 | KInt64 | KFloat32 | KFloat64 => true
  | _ => false
  end.

(** [Embed Slice] that is not exported, and a field of a kind [Parse] has
    no case for. *)
Definition testUnexported : StructField :=
  {| Name := "embed"; PkgPath := "qparams"; FieldType := Slice; Tag := [] |}.
Definition testFlag : StructField :=
  {| Name := "Flag"; PkgPath := ""; FieldType := TBool; Tag := [] |}.

(** The bytes ['A'] to ['Z'] and ['a'] to ['z']. *)
Definition isUpperByte (c : ascii) : bool :=
  ((65 <=? byteVal c) && (byteVal c <=? 90))%N.
Definition isLowerByte (c : ascii) : bool :=
  ((97 <=? byteVal c) && (byteVal c <=? 122))%N.

Fixpoint hasUpper (s : string) : bool :=
  match s with
  | EmptyString => false
  | String c s' => isUpperByte c || hasUpper s'
  end.

(** [Foo int] and [Foo Slice] without annotation, and [Embed Slice] and
    [Filter Map] with the name override [name:Foo]. *)
Definition testFoo : StructField :=
  {| Name := "Foo"; PkgPath := ""; FieldType := TInt; Tag := [] |}.
Definition testFooSlice : StructField :=
  {| Name := "Foo"; PkgPath := ""; FieldType := Slice; Tag := [] |}.
Definition testEmbedOverride : StructField :=
  {| Name := "Embed"; PkgPath := ""; FieldType := Slice;
     Tag := [("qparams", "name:Foo")] |}.
Definition testFilterOverride : StructField :=
  {| Name := "Filter"; PkgPath := ""; FieldType := Map;
     Tag := [("qparams", "name:Foo ops:>,==")] |}.

(** ** Lemmas on strings *)

Lemma append_empty_r (s : string) : s +:+ "" = s.
Proof. induction s as [|c s IH]; simpl; congruence. Qed.

Lemma append_assoc (a b c : string) : (a +:+ b) +:+ c = a +:+ b +:+ c.
Proof. induction a as [|x a IH]; simpl; congruence. Qed.

Lemma length_append (a b : string) :
  String.length (a +:+ b) = (String.length a + String.length b)%nat.
Proof. induction a as [|x a IH]; simpl; congruence. Qed.

Lemma prefix_occurs (p s : string) :
  strings_HasPrefix s p = true ↔ ∃ r, s = p +:+ r.
Proof.
  revert s. induction p as [|c p IH]; intros s.
  - destruct s; simpl; (split; [intros _; by eexists | done]).
  - destruct s as [|d s]; simpl.
    + split; [done | intros [r Hr]; discriminate].
    + rewrite andb_true_iff, bool_decide_eq_true, IH.
      split; [intros [-> [r ->]]; by exists r | intros [r [= -> ->]]; eauto].
Qed.

Lemma sliceTo_append (l r : string) : sliceTo (String.length l) (l +:+ r) = l.
Proof. induction l as [|c l IH]; simpl; [by destruct r | congruence]. Qed.

Lemma sliceFrom_append (l r : string) : sliceFrom (String.length l) (l +:+ r) = r.
Proof. induction l as [|c l IH]; simpl; [by destruct r | done]. Qed.

Lemma slice_split (n : nat) (s : string) : s = sliceTo n s +:+ sliceFrom n s.
Proof.
  revert s. induction n as [|n IH]; intros [|c s]; simpl; try done.
  by rewrite <- IH.
Qed.

Lemma sliceTo_length (n : nat) (s : string) :
  (n ≤ String.length s)%nat → String.length (sliceTo n s) = n.
Proof.
  revert s. induction n as [|n IH]; intros [|c s]; simpl; try done; try lia.
  intros H. rewrite IH; lia.
Qed.

Lemma sliceFrom_add (n m : nat) (s : string) :
  sliceFrom (n + m) s = sliceFrom m (sliceFrom n s).
Proof.
  revert s. induction n as [|n IH]; intros s; simpl; [done|].
  destruct s as [|c s]; [by destruct m | apply IH].
Qed.

Lemma strings_Index_unfold (s sub : string) :
  strings_Index s sub =
    if strings_HasPrefix s sub then Some 0%nat
    else match s with
         | EmptyString => None
         | String _ s' => S <$> strings_Index s' sub
         end.
Proof. by destruct s. Qed.

#[local] Arguments strings_Index : simpl never.

(** [strings.Index] finds the first instance. *)
Lemma strings_Index_Some (s sub : string) (i : nat) :
  strings_Index s sub = Some i →
  s = sliceTo i s +:+ sub +:+ sliceFrom (i + String.length sub) s
  ∧ (i ≤ String.length s)%nat
  ∧ ∀ l r, s = l +:+ sub +:+ r → (i ≤ String.length l)%nat.
Proof.
  revert i. induction s as [|c s IH]; intros i; rewrite strings_Index_unfold;
    destruct (strings_HasPrefix _ sub) eqn:Hp; try done.
  - intros [= <-]. apply prefix_occurs in Hp as [r Hr].
    split_and!; [|done|intros; lia].
    destruct sub; [by destruct r | done].
  - intros [= <-]. apply prefix_occurs in Hp as [r Hr].
    split_and!; [|lia|intros; lia].
    simpl. rewrite Hr at 2. by rewrite sliceFrom_append.
  - destruct (strings_Index s sub) as [j|] eqn:Hj; [|done].
    intros [= <-]. destruct (IH j eq_refl) as (Heq & Hle & Hmin).
    split_and!.
    + simpl. by rewrite <- Heq.
    + simpl. lia.
    + intros [|d l] r Hlr; simpl in Hlr.
      * assert (strings_HasPrefix (String c s) sub = true) as Hp'
          by (apply prefix_occurs; by exists r).
        congruence.
      * injection Hlr as -> ->. specialize (Hmin l r eq_refl). simpl. lia.
Qed.

Lemma strings_Index_None (s sub : string) :
  strings_Index s sub = None → ¬ occursIn sub s.
Proof.
  induction s as [|c s IH]; rewrite strings_Index_unfold;
    destruct (strings_HasPrefix _ sub) eqn:Hp; try done.
  - intros _ ([|d l] & r & Hlr); simpl in Hlr; [|done].
    assert (strings_HasPrefix "" sub = true) by (apply prefix_occurs; by exists r).
    congruence.
  - destruct (strings_Index s sub) eqn:Hj; [done|].
    intros _ ([|d l] & r & Hlr); simpl in Hlr.
    + assert (strings_HasPrefix (String c s) sub = true)
        by (apply prefix_occurs; by exists r).
      congruence.
    + injection Hlr as -> ->. apply IH; [done|]. by exists l, r.
Qed.

Lemma strings_Contains_occurs (s sub : string) :
  strings_Contains s sub = true ↔ occursIn sub s.
Proof.
  unfold strings_Contains. rewrite bool_decide_eq_true. split.
  - intros [i Hi]. apply strings_Index_Some in Hi as (Heq & _ & _).
    eexists _, _. exact Heq.
  - intros Hocc. destruct (strings_Index s sub) eqn:Hi; [done|].
    by apply strings_Index_None in Hi.
Qed.

Lemma strings_Contains_false (s sub : string) :
  strings_Contains s sub = false ↔ ¬ occursIn sub s.
Proof.
  rewrite <- strings_Contains_occurs. by destruct (strings_Contains s sub).
Qed.

Lemma sliceFrom_length (n : nat) (s : string) :
  String.length (sliceFrom n s) = (String.length s - n)%nat.
Proof.
  revert s. induction n as [|n IH]; intros [|c s]; simpl; try done; lia.
Qed.

Lemma strings_Index_empty (sep : string) :
  sep ≠ "" → strings_Index "" sep = None.
Proof. by destruct sep. Qed.

(** [String.length s] rounds of [genSplit] are enough: more fuel does not
    change the result. *)
Lemma genSplit_fuel (sep : string) (n m : nat) (s : string) :
  sep ≠ "" → (String.length s ≤ n)%nat → (String.length s ≤ m)%nat →
  genSplit n s sep = genSplit m s sep.
Proof.
  intros Hsep. revert m s.
  assert (∀ k, genSplit k "" sep = [""]) as Hnil.
  { intros [|k]; simpl; [done|]. by rewrite strings_Index_empty. }
  induction n as [|n IH]; intros m s Hn Hm.
  - destruct s; [by rewrite !Hnil | simpl in Hn; lia].
  - destruct m as [|m]; [destruct s; [by rewrite !Hnil | simpl in Hm; lia]|].
    simpl. destruct (strings_Index s sep) as [i|] eqn:Hi; [|done].
    f_equal. apply strings_Index_Some in Hi as (Heq & Hle & _).
    assert (0 < String.length sep)%nat by (destruct sep; simpl; [done | lia]).
    assert (0 < String.length s)%nat.
    { rewrite Heq, !length_append. lia. }
    apply IH; rewrite sliceFrom_length; lia.
Qed.

(** ** Lemmas on the loops of the package *)

Lemma ToIntSlice_range_spec (s : list string) (newSlice : list Z)
    (err : option string) :
  ToIntSlice_range s newSlice err =
    (newSlice ++ omap Atoi s,
     match last (failingMembers Atoi s) with
     | Some v => Some (errMemberInt v)
     | None => err
     end).
Proof.
  unfold failingMembers.
  revert newSlice err. induction s as [|v s IH]; intros newSlice err; simpl.
  - by rewrite app_nil_r.
  - destruct (Atoi v) as [i|] eqn:Hv.
    + rewrite IH, <- app_assoc. rewrite filter_cons_False by by rewrite Hv.
      done.
    + rewrite IH. rewrite filter_cons_True by done. rewrite last_cons.
      by destruct (last _).
Qed.

Lemma ToFloatSlice_range_spec (s : list string) (newSlice : list spec_float)
    (err : option string) :
  ToFloatSlice_range s newSlice err =
    (newSlice ++ omap (λ v, ParseFloat v 64) s,
     match last (failingMembers (λ v, ParseFloat v 64) s) with
     | Some v => Some (errMemberFloat v)
     | None => err
     end).
Proof.
  unfold failingMembers.
  revert newSlice err. induction s as [|v s IH]; intros newSlice err; simpl.
  - by rewrite app_nil_r.
  - destruct (ParseFloat v 64) as [f|] eqn:Hv.
    + rewrite IH, <- app_assoc. rewrite filter_cons_False by by rewrite Hv.
      done.
    + rewrite IH. rewrite filter_cons_True by done. rewrite last_cons.
      by destruct (last _).
Qed.

Lemma parseSlice_range_spec (slice newSlice : list string) :
  parseSlice_range slice newSlice =
    newSlice ++ filter (λ v, v ≠ "") (strings_ToLower <$> slice).
Proof.
  revert newSlice. induction slice as [|val slice IH]; intros newSlice; simpl.
  - by rewrite app_nil_r.
  - case_bool_decide as Hv.
    + rewrite IH, <- app_assoc. by rewrite filter_cons_True.
    + rewrite IH. by rewrite filter_cons_False by (intros ?; congruence).
Qed.

Lemma assignable_unnamed (v t : Typ) :
  isNamed v = false → underlying t = v → assignableTo v t = true.
Proof.
  intros Hv Ht. unfold assignableTo.
  assert (underlying v = v) as Hu by (destruct v; simpl in *; congruence).
  rewrite Hu, Ht, Hv. rewrite (bool_decide_eq_true_2 (v = v)) by done.
  apply orb_true_r.
Qed.

Lemma find_first {A} (f : A → bool) (l : list A) (x : A) :
  find f l = Some x →
  ∃ l1 l2, l = l1 ++ x :: l2 ∧ f x = true ∧ Forall (λ y, f y = false) l1.
Proof.
  induction l as [|y l IH]; simpl; [done|].
  destruct (f y) eqn:Hy.
  - intros [= ->]. by exists [], l.
  - intros Hx. destruct (IH Hx) as (l1 & l2 & -> & Hfx & Hl1).
    exists (y :: l1), l2. split_and!; [done | done | by constructor].
Qed.

Lemma find_is_Some {A} (f : A → bool) (l : list A) (x : A) :
  x ∈ l → f x = true → is_Some (find f l).
Proof.
  induction 1 as [x l|x y l _ IH]; simpl; intros Hx.
  - by rewrite Hx.
  - destruct (f y); [done | by apply IH].
Qed.

(** What [walkSegment] returns, in terms of the segment. *)
Lemma walkSegment_Some (operators : list string) (segment : string)
    (fieldToken op operand : string) :
  walkSegment operators segment = Some (fieldToken, op, operand) →
  ∃ before after left,
    operators = before ++ op :: after
    ∧ Forall (λ o, ¬ occursIn o segment) before
    ∧ segment = left +:+ op +:+ operand
    ∧ (∀ left' right', segment = left' +:+ op +:+ right' →
         (String.length left ≤ String.length left')%nat)
    ∧ fieldToken = trimSpace (strings_ToLower left).
Proof.
  unfold walkSegment, firstOperator.
  destruct (find _ operators) as [op'|] eqn:Hfind; [|done].
  destruct (strings_Index segment op') as [i|] eqn:Hi; [|done].
  intros [= <- <- <-].
  apply find_first in Hfind as (before & after & -> & _ & Hbefore).
  apply strings_Index_Some in Hi as (Heq & Hle & Hmin).
  exists before, after, (sliceTo i segment). split_and!; try done.
  - eapply Forall_impl; [exact Hbefore|]. intros o Ho.
    by apply strings_Contains_false.
  - intros left' right' Hseg. rewrite sliceTo_length by done. eauto.
Qed.

Lemma walkSegment_None (operators : list string) (segment : string) :
  walkSegment operators segment = None →
  Forall (λ o, ¬ occursIn o segment) operators.
Proof.
  unfold walkSegment, firstOperator.
  destruct (find _ operators) as [op'|] eqn:Hfind.
  - destruct (strings_Index segment op') as [i|] eqn:Hi; [done|].
    apply find_some in Hfind as [_ Hc].
    unfold strings_Contains in Hc. rewrite Hi in Hc.
    apply bool_decide_eq_true in Hc. by destruct Hc.
  - intros _. apply Forall_forall. intros o Ho.
    apply strings_Contains_false. eapply find_none; [done|].
    by apply list_elem_of_In.
Qed.

Lemma walkSegment_occurs (operators : list string) (segment o : string) :
  o ∈ operators → occursIn o segment →
  is_Some (walkSegment operators segment).
Proof.
  intros Ho Hocc. destruct (walkSegment operators segment) eqn:Hw; [done|].
  apply walkSegment_None in Hw. rewrite Forall_forall in Hw.
  by destruct (Hw o Ho).
Qed.

Lemma walk_fold_is_Some (operators : list string) (l : list string)
    (m : gmap string string) (key : string) :
  is_Some (m !! key) → is_Some (foldl (walkEntry operators) m l !! key).
Proof.
  revert m. induction l as [|seg l IH]; intros m Hm; simpl; [done|].
  apply IH. unfold walkEntry.
  destruct (walkSegment operators seg) as [[[ft op] operand]|]; [|done].
  rewrite lookup_insert. by case_decide.
Qed.

Lemma walk_fold_lookup (operators : list string) (l : list string)
    (m : gmap string string) (key operand : string) :
  m !! key = Some operand →
  (∀ seg, seg ∈ l → segmentKey operators seg ≠ Some key) →
  foldl (walkEntry operators) m l !! key = Some operand.
Proof.
  revert m. induction l as [|seg l IH]; intros m Hm Hl; simpl; [done|].
  apply IH; [|intros seg' Hseg'; apply Hl; by right].
  specialize (Hl seg (list_elem_of_here _ _)).
  unfold walkEntry, segmentKey in *.
  destruct (walkSegment operators seg) as [[[ft op] operand']|]; [|done].
  simpl in Hl. rewrite lookup_insert_ne; [done | congruence].
Qed.

(** ** The Filter Tokenizer and [parseMap] *)

(** C1. For a map-typed destination field (exported, of underlying type
    [map[string]string]) [parseMap] stores a map in which every filter
    segment that contains a configured operator has its entry: the segment
    splits as field token, operator and operand; the key is the lower-cased,
    trimmed field token joined to the operator by a single space, and the
    value is the operand verbatim, a later segment with the same key
    overwriting it. With the vocabulary of the tests, the value
    [Lastname-like-Doe] gives the one entry ["lastname -like-"] to ["Doe"]. *)
Theorem parseMap_segment_entries :
  (∀ (sField : StructField) (d : Data) (queryValue : string),
     IsExported sField = true →
     underlying (FieldType sField) = TMapOf TString TString →
     ∃ m,
       parseMap sField (fieldValue sField d) queryValue
         = Returned (fieldValue sField (DMap m))
       ∧ ∀ before segment after o,
           walkSegments queryValue (getSeparator sField)
             = before ++ segment :: after →
           o ∈ getOperators sField → occursIn o segment →
           ∃ left op operand,
             segment = left +:+ op +:+ operand
             ∧ op ∈ getOperators sField
             ∧ let key := compositeKey (trimSpace (strings_ToLower left)) op in
               is_Some (m !! key)
               ∧ ((∀ seg, seg ∈ after →
                     segmentKey (getOperators sField) seg ≠ Some key) →
                  m !! key = Some operand))
  ∧ parseMap testFilter (fieldValue testFilter DNil) "Lastname-like-Doe"
      = Returned (fieldValue testFilter (DMap {["lastname -like-" := "Doe"]})).
Proof.
  split; [|by vm_compute].
  intros sField d queryValue Hexp Hty.
  exists (walk queryValue (getSeparator sField) (getOperators sField)).
  split.
  - unfold parseMap, Value_Set, fieldValue, walkType; simpl.
    rewrite Hexp; simpl. by rewrite assignable_unnamed.
  - intros before segment after o Hsegs Ho Hocc.
    destruct (walkSegment_occurs _ _ _ Ho Hocc) as [[[ft op] operand] Hw].
    destruct (walkSegment_Some _ _ _ _ _ Hw)
      as (ops1 & ops2 & left & Hops & _ & Hseg & _ & ->).
    exists left, op, operand. split_and!; [done| |].
    { rewrite Hops. apply elem_of_app. right. by left. }
    unfold walk. rewrite Hsegs, foldl_app. simpl.
    assert (walkEntry (getOperators sField)
              (foldl (walkEntry (getOperators sField)) ∅ before) segment
            !! compositeKey (trimSpace (strings_ToLower left)) op
            = Some operand) as Hins.
    { unfold walkEntry. rewrite Hw. apply lookup_insert_eq. }
    split.
    + apply walk_fold_is_Some. by rewrite Hins.
    + intros Hafter. by apply walk_fold_lookup.
Qed.

(** C2. The tokenizer selects the first operator, in the order of the
    vocabulary, that occurs in the segment (no operator listed before it
    occurs), and splits the segment at the first occurrence of that operator;
    it yields nothing exactly when no operator occurs. With the vocabulary
    [">"; "=="; "<="; "<"; "!="; "-like-"], [balance<=1000] is stored under
    ["balance <="] with operand ["1000"]. *)
Theorem walkSegment_first_operator (operators : list string) (segment : string) :
  match walkSegment operators segment with
  | Some (fieldToken, op, operand) =>
      ∃ before after left,
        operators = before ++ op :: after
        ∧ Forall (λ o, ¬ occursIn o segment) before
        ∧ segment = left +:+ op +:+ operand
        ∧ (∀ left' right', segment = left' +:+ op +:+ right' →
             (String.length left ≤ String.length left')%nat)
        ∧ fieldToken = trimSpace (strings_ToLower left)
  | None => Forall (λ o, ¬ occursIn o segment) operators
  end
  ∧ walkSegment [">"; "=="; "<="; "<"; "!="; "-like-"] "balance<=1000"
      = Some ("balance", "<=", "1000")
  ∧ walk "balance<=1000" "," [">"; "=="; "<="; "<"; "!="; "-like-"]
      = {["balance <=" := "1000"]}.
Proof.
  split; [|split; by vm_compute].
  destruct (walkSegment operators segment) as [[[ft op] operand]|] eqn:Hw.
  - by apply walkSegment_Some.
  - by apply walkSegment_None.
Qed.

(** ** The List Splitter *)

(** C3. For a list-typed destination field (exported, of underlying type
    [[]string]), every value and every separator the field configures,
    [parseSlice] returns normally and stores exactly the tokens of the value
    split on the separator, each lower-cased, the empty ones discarded, in
    source order; the separator is never empty. ["User,Order,"] and
    [",User,Order,"] both give [["user"; "order"]]. *)
Theorem parseSlice_tokens :
  (∀ (sField : StructField) (d : Data) (queryValue : string),
     IsExported sField = true →
     underlying (FieldType sField) = TSliceOf TString →
     parseSlice sField (fieldValue sField d) queryValue
       = Returned (fieldValue sField
           (DSlice (filter (λ v, v ≠ "")
              (strings_ToLower
                 <$> strings_Split queryValue (getSeparator sField))))))
  ∧ (∀ sField : StructField, getSeparator sField ≠ "")
  ∧ parseSlice testEmbed (fieldValue testEmbed DNil) "User,Order,"
      = Returned (fieldValue testEmbed (DSlice ["user"; "order"]))
  ∧ parseSlice testEmbed (fieldValue testEmbed DNil) ",User,Order,"
      = Returned (fieldValue testEmbed (DSlice ["user"; "order"])).
Proof.
  split; [|split; [|split; by vm_compute]]; cycle 1.
  { intros sField. unfold getSeparator. by case_bool_decide. }
  intros sField d queryValue Hexp Hty.
  unfold parseSlice, Value_Set, fieldValue; simpl.
  rewrite Hexp; simpl. rewrite assignable_unnamed by done.
  by rewrite parseSlice_range_spec.
Qed.

(** ** Bulk conversions of a [Slice] *)

(** C9, as the code has it. [ToIntSlice] and [ToFloatSlice] return the
    converted members in order, the failing members omitted, and an error
    that is nil when every member converts and otherwise names the last
    failing member only. *)
Theorem ToIntSlice_last_failing_member (s : list string) :
  ToIntSlice s
    = (omap Atoi s, errMemberInt <$> last (failingMembers Atoi s))
  ∧ ToFloatSlice s
    = (omap (λ v, ParseFloat v 64) s,
       errMemberFloat <$> last (failingMembers (λ v, ParseFloat v 64) s)).
Proof.
  unfold ToIntSlice, ToFloatSlice.
  rewrite ToIntSlice_range_spec, ToFloatSlice_range_spec. simpl.
  split; f_equal; by destruct (last _).
Qed.

(** C9 as stated fails: of the two failing members ["x"] and ["y"] the
    error describes ["y"] alone, and it is the error of the slice whose only
    failing member is ["y"]. *)
Lemma ToIntSlice_error_not_aggregated :
  ToIntSlice ["x"; "y"; "3"]
    = ([3], Some "Could not convert member y to int")
  ∧ failingMembers Atoi ["x"; "y"; "3"] = ["x"; "y"]
  ∧ strings_Contains "Could not convert member y to int" "x" = false
  ∧ ToIntSlice ["y"; "3"] = ([3], Some "Could not convert member y to int").
Proof. by vm_compute. Qed.

(** ** The shape of the destination *)

(** C4, where the code departs from it. With the nil interface as
    destination, which is not a pointer to a struct, [Parse] does not return
    [ErrWrongDestType]: it panics, whatever the query, on [t.Kind()] of the
    nil [reflect.Type]. *)
Theorem Parse_nil_dest_panics (orders : nat → list string)
    (queryValues : Values) :
  Parse orders NilIface queryValues
    = Panicked "runtime error: invalid memory address or nil pointer dereference".
Proof. reflexivity. Qed.

(** Every other destination that is not a pointer to a struct gets the
    sentinel error and is returned as it was. *)
Lemma Parse_wrong_dest (orders : nat → list string) (t : Typ)
    (target : option (list (StructField * Data))) (queryValues : Values) :
  typeKind t ≠ KPtr ∨ typeKind <$> typeElem t ≠ Some KStruct →
  Parse orders (Dyn t target) queryValues
    = Returned (Dyn t target, Some ErrWrongDestType).
Proof.
  intros Ht. unfold Parse.
  destruct Ht as [Ht|Ht].
  - by rewrite bool_decide_eq_true_2.
  - rewrite (bool_decide_eq_true_2 _ Ht). by rewrite orb_true_r.
Qed.

(** ** Scalar fields of 32 bits *)

(** C5, where the code departs from it. For a field of type [int32] a raw
    value that [strconv.Atoi] accepts makes the dispatch of [Parse] panic in
    [Value.Set] (an [int] is not assignable to an [int32]); only a raw value
    that does not parse returns, with the coercion error. The same holds of
    [float32] and [strconv.ParseFloat]. [Parse] on the struct [N int32] and
    the query [n=5] panics. *)
Theorem Parse_scalar32_panics :
  (∀ (name pkg : string) (tag : list (string * string)) (d : Data)
      (raw : string),
     let f := {| Name := name; PkgPath := pkg; FieldType := TInt32;
                 Tag := tag |} in
     bindValue f (fieldValue f d) raw =
       match Atoi raw with
       | Some _ => Panicked (setPanic f TInt)
       | None => Returned (fieldValue f d, Some (errInteger name raw))
       end)
  ∧ (∀ (name pkg : string) (tag : list (string * string)) (d : Data)
       (raw : string),
     let f := {| Name := name; PkgPath := pkg; FieldType := TFloat32;
                 Tag := tag |} in
     bindValue f (fieldValue f d) raw =
       match ParseFloat raw 32 with
       | Some _ => Panicked (setPanic f TFloat64)
       | None => Returned (fieldValue f d, Some (errFloat name raw))
       end)
  ∧ Atoi "5" = Some 5
  ∧ Parse (λ _, ["n"]) (Dyn testStructPtr (Some [(testInt32, DInt 0)]))
      {["n" := ["5"]]}
    = Panicked "reflect.Set: value of type int is not assignable to type int32".
Proof.
  split_and!; [| |by vm_compute|by vm_compute].
  - intros name pkg tag d raw f.
    unfold bindValue, parseInt, Value_Set, setPanic, IsExported; simpl.
    destruct (Atoi raw); [|done]. subst f. unfold IsExported; simpl.
    by case_bool_decide.
  - intros name pkg tag d raw f.
    unfold bindValue, parseFloat, Value_Set, setPanic, IsExported; simpl.
    destruct (ParseFloat raw 32); [|done]. subst f. unfold IsExported; simpl.
    by case_bool_decide.
Qed.

(** ** Lemmas on the rounds of [Parse] *)

Lemma Value_Set_inv (v x v' : Value) :
  Value_Set v x = Returned v' →
  vType v' = vType v ∧ vCanSet v' = vCanSet v ∧ vData v' = vData x.
Proof.
  unfold Value_Set. destruct (vCanSet v); simpl; [|done].
  destruct (assignableTo _ _); [|done]. by intros [= <-].
Qed.

(** The body of the [range] loop keeps the type of the field, only adds
    keys to the query map, leaves a scalar field alone and leaves a list or
    map field allocated when the key matches. *)
Lemma rangeBody_inv (fieldName sep key : string) (val : list string)
    (vv vv' : Value) (q q' : Values) :
  rangeBody fieldName sep key val (vv, q) = Returned (vv', q') →
  vType vv' = vType vv ∧ vCanSet vv' = vCanSet vv
  ∧ (∀ k, is_Some (q !! k) → is_Some (q' !! k))
  ∧ (Value_IsNil vv = false → vv' = vv)
  ∧ (isContainer (Value_Kind vv) = false → vv' = vv)
  ∧ (strings_ToLower key = fieldName →
     isContainer (Value_Kind vv) = true → Value_IsNil vv' = false).
Proof.
  assert (∀ k (x : list string), ∀ k', is_Some (q !! k') →
            is_Some (<[k := x]> q !! k')) as Hdom.
  { intros k x k' Hk'. rewrite lookup_insert. by case_decide. }
  intros Hbody.
  revert Hbody. unfold rangeBody.
  case_bool_decide as Hkey; [intros [= <- <-]; split_and!; done|].
  unfold Value_Kind, Value_IsNil, MakeMap, MakeSlice, ValueOf.
  destruct (typeKind (vType vv)) eqn:Hkind; simpl;
    try (intros [= <- <-]; split_and!; by auto).
  - destruct (vData vv) eqn:Hd; simpl;
      try (destruct (typeElem (vType vv)); [|done];
           case_bool_decide; intros [= <- <-]; split_and!;
           by (auto || rewrite Hd)).
    destruct (Value_Set vv _) as [v1|] eqn:Hs; simpl; [|done].
    apply Value_Set_inv in Hs as (Ht & Hc & Hd1); simpl in Hd1.
    destruct (typeElem (vType vv)); [|done].
    case_bool_decide; intros [= <- <-]; split_and!;
      by (auto || rewrite ?Hd1).
  - destruct (vData vv) eqn:Hd; simpl;
      try (destruct (typeKey (vType vv)); [|done];
           destruct (typeElem (vType vv)); [|done];
           destruct (_ || _); intros [= <- <-]; split_and!;
           by (auto || rewrite Hd)).
    destruct (Value_Set vv _) as [v1|] eqn:Hs; simpl; [|done].
    apply Value_Set_inv in Hs as (Ht & Hc & Hd1); simpl in Hd1.
    destruct (typeKey (vType vv)); [|done].
    destruct (typeElem (vType vv)); [|done].
    destruct (_ || _); intros [= <- <-]; split_and!;
      by (auto || rewrite ?Hd1).
Qed.

#[local] Arguments rangeBody : simpl never.

(** An invariant of the body is an invariant of the loop. *)
Lemma rangeValues_inv (P : Value * Values → Prop) (fieldName sep : string)
    (order : list string) (st st' : Value * Values) :
  (∀ key val s s', P s → s.2 !! key = Some val →
     rangeBody fieldName sep key val s = Returned s' → P s') →
  P st →
  rangeValues order (rangeBody fieldName sep) st = Returned st' → P st'.
Proof.
  intros Hstep. revert st. induction order as [|key order IH]; intros st Hst.
  - by intros [= <-].
  - simpl. destruct (st.2 !! key) as [val|] eqn:Hval; [|by apply IH].
    destruct (rangeBody fieldName sep key val st) as [s1|] eqn:Hbody; [|done].
    simpl. apply IH. by eapply Hstep.
Qed.

Lemma rangeValues_keeps (fieldName sep : string) (order : list string)
    (vv vv' : Value) (q q' : Values) :
  rangeValues order (rangeBody fieldName sep) (vv, q) = Returned (vv', q') →
  vType vv' = vType vv ∧ vCanSet vv' = vCanSet vv
  ∧ (∀ k, is_Some (q !! k) → is_Some (q' !! k))
  ∧ (Value_IsNil vv = false → vv' = vv)
  ∧ (isContainer (Value_Kind vv) = false → vv' = vv).
Proof.
  intros Hloop.
  apply (rangeValues_inv (λ s,
    vType s.1 = vType vv ∧ vCanSet s.1 = vCanSet vv
    ∧ (∀ k, is_Some (q !! k) → is_Some (s.2 !! k))
    ∧ (Value_IsNil vv = false → s.1 = vv)
    ∧ (isContainer (Value_Kind vv) = false → s.1 = vv))) in Hloop; [done| |done].
  intros key val [v1 q1] [v2 q2] (Ht & Hc & Hdom & Hnil & Hsc) _ Hbody.
  simpl in *.
  apply rangeBody_inv in Hbody as (Ht' & Hc' & Hdom' & Hnil' & Hsc' & _).
  split_and!; [congruence | congruence | by auto | |].
  - intros Hvv. specialize (Hnil Hvv). subst v1. by apply Hnil'.
  - intros Hvv. specialize (Hsc Hvv). subst v1. by apply Hsc'.
Qed.

(** A list or map field is allocated once the loop has reached a key that
    matches its name. *)
Lemma rangeValues_allocates (fieldName sep key : string)
    (order : list string) (vv vv' : Value) (q q' : Values) :
  key ∈ order → is_Some (q !! key) →
  strings_ToLower key = fieldName →
  isContainer (Value_Kind vv) = true →
  rangeValues order (rangeBody fieldName sep) (vv, q) = Returned (vv', q') →
  Value_IsNil vv' = false.
Proof.
  intros Hin Hq Hkey. revert vv q Hq.
  induction order as [|k order IH]; intros vv q Hq Hkind;
    [by apply elem_of_nil in Hin|].
  simpl. destruct (decide (k = key)) as [->|Hne].
  - destruct Hq as [val Hval]. rewrite Hval.
    destruct (rangeBody _ _ _ _ _) as [[v1 q1]|] eqn:Hbody; [|done]. simpl.
    apply rangeBody_inv in Hbody as (_ & _ & _ & _ & _ & Hnil).
    specialize (Hnil Hkey Hkind). intros Hloop.
    apply rangeValues_keeps in Hloop as (_ & _ & _ & Hsame & _).
    by rewrite (Hsame Hnil).
  - apply elem_of_cons in Hin as [->|Hin]; [done|].
    destruct (q !! k) as [val|] eqn:Hval; [|by apply IH].
    destruct (rangeBody _ _ _ _ _) as [[v1 q1]|] eqn:Hbody; [|done]. simpl.
    apply rangeBody_inv in Hbody as (Ht & _ & Hdom & _ & _ & _).
    apply IH; [done | by auto |]. unfold Value_Kind in *. by rewrite Ht.
Qed.

Lemma bindValue_inv (fieldT : StructField) (fieldV v' : Value)
    (queryValue : string) (err : option string) :
  bindValue fieldT fieldV queryValue = Returned (v', err) →
  vType v' = vType fieldV ∧ vCanSet v' = vCanSet fieldV
  ∧ (isContainer (Value_Kind fieldV) = true →
       err = None ∧ Value_IsNil v' = false)
  ∧ (∀ m, err = Some m →
       v' = fieldV
       ∧ match Value_Kind fieldV with
         | KInt | KInt32 =>
             Atoi queryValue = None ∧ m = errInteger (Name fieldT) queryValue
         | KInt64 =>
             ParseInt10 queryValue 0 = None
             ∧ m = errInteger (Name fieldT) queryValue
         | KFloat64 =>
             ParseFloat queryValue 64 = None
             ∧ m = errFloat (Name fieldT) queryValue
         | KFloat32 =>
             ParseFloat queryValue 32 = None
             ∧ m = errFloat (Name fieldT) queryValue
         | _ => False
         end).
Proof.
  unfold bindValue, Value_Kind, Value_IsNil. intros Hb.
  destruct (typeKind (vType fieldV)) eqn:Hkind; simpl in Hb;
    rewrite ?Hkind in Hb; simpl in Hb;
    unfold parseMap, parseSlice, parseInt, parseInt64, parseFloat,
      parseString in Hb.
  all: try (simplify_eq/=; split_and!; by try (intros; simplify_eq)).
  all: try (destruct (Value_Set _ _) as [v1|] eqn:Hs; simpl in Hb; [|done];
            apply Value_Set_inv in Hs as (Ht & Hc & Hd); simpl in Hd;
            rewrite ?Ht, ?Hkind in Hb; simplify_eq/=;
            split_and!; try done; try (intros; simplify_eq);
            by rewrite Hd).
  all: match type of Hb with
       | context [Atoi ?r] => destruct (Atoi r) eqn:Hconv
       | context [ParseInt10 ?r ?b] => destruct (ParseInt10 r b) eqn:Hconv
       | context [ParseFloat ?r ?b] => destruct (ParseFloat r b) eqn:Hconv
       end; simpl in Hb.
  all: try (simplify_eq/=; split_and!; try done; by intros m [= <-]).
  all: destruct (Value_Set _ _) as [v1|] eqn:Hs; simpl in Hb; [|done];
       apply Value_Set_inv in Hs as (Ht & Hc & Hd); simplify_eq/=;
       split_and!; by try (intros; simplify_eq).
Qed.

(** One round: the type of the field is kept, keys are only added, an
    error leaves the field as it was and names the field and the raw value,
    and a list or map field whose name a key matches is left allocated. *)
Lemma parseField_inv (order : list string) (fieldT : StructField)
    (fieldV v' : Value) (q q' : Values) (err : option string) :
  parseField order fieldT fieldV q = Returned (v', q', err) →
  vType v' = vType fieldV ∧ vCanSet v' = vCanSet fieldV
  ∧ (∀ k, is_Some (q !! k) → is_Some (q' !! k))
  ∧ (∀ m, err = Some m → vType fieldV = FieldType fieldT →
       v' = fieldV
       ∧ Values_Get q' (effectiveName fieldT) ≠ ""
       ∧ scalarFailure fieldT (Values_Get q' (effectiveName fieldT)) = Some m)
  ∧ (∀ key, key ∈ order → is_Some (q !! key) →
       strings_ToLower key = effectiveName fieldT →
       isContainer (Value_Kind fieldV) = true → Value_IsNil v' = false).
Proof.
  unfold parseField.
  destruct (rangeValues _ _ _) as [[v1 q1]|] eqn:Hloop; simpl; [|done].
  pose proof (rangeValues_keeps _ _ _ _ _ _ _ Hloop)
    as (Ht & Hc & Hdom & Hnil & Hsc).
  assert (Value_Kind v1 = Value_Kind fieldV) as Hk
    by (unfold Value_Kind; by rewrite Ht).
  case_bool_decide as Hqv.
  - intros [= <- <- <-]. split_and!; try done.
    intros key Hin Hq Hkey Hcont. by eapply rangeValues_allocates.
  - destruct (bindValue _ _ _) as [[v2 e]|] eqn:Hbind; simpl; [|done].
    intros [= <- <- <-].
    apply bindValue_inv in Hbind as (Ht2 & Hc2 & Hcont2 & Herr).
    split_and!; [congruence | congruence | done | |].
    + intros m -> Hty. destruct (Herr m eq_refl) as [-> Hm].
      rewrite Hk in Hm. unfold scalarFailure.
      unfold Value_Kind in *. rewrite <- Hty.
      destruct (typeKind (vType fieldV)) eqn:Hkind; try done;
        destruct Hm as [-> ->]; (split_and!; [by apply Hsc | done | done]).
    + intros key Hin Hq Hkey Hcont. apply Hcont2. by rewrite Hk.
Qed.

Lemma fieldValue_eta (fieldT : StructField) (d : Data) (v : Value) :
  vType v = vType (fieldValue fieldT d) →
  vCanSet v = vCanSet (fieldValue fieldT d) →
  v = fieldValue fieldT (vData v).
Proof. destruct v; unfold fieldValue; simpl. by intros -> ->. Qed.

(** The rounds of [Parse] as a chain: [qs] lists the query map before each
    round and after the last, [es] the error of each round. Every field has
    its round, whatever the other rounds return. *)
Lemma parseFields_rounds (orders : nat → list string) (i : nat)
    (fields fields' : list (StructField * Data)) (q q' : Values)
    (errs errs' : list string) :
  parseFields orders i fields q errs = Returned (fields', q', errs') →
  ∃ (qs : list Values) (es : list (option string)),
    length es = length fields
    ∧ qs !! 0%nat = Some q
    ∧ errs' = errs ++ omap id es
    ∧ (∀ j qj, qs !! j = Some qj → ∀ k, is_Some (q !! k) → is_Some (qj !! k))
    ∧ ∀ j fieldT d, fields !! j = Some (fieldT, d) →
        ∃ qj qj' d' e,
          qs !! j = Some qj ∧ qs !! S j = Some qj' ∧ es !! j = Some e
          ∧ fields' !! j = Some (fieldT, d')
          ∧ parseField (orders (i + j)%nat) fieldT (fieldValue fieldT d) qj
              = Returned (fieldValue fieldT d', qj', e).
Proof.
  revert i fields' q q' errs errs'.
  induction fields as [|[fieldT d] fields IH];
    intros i fields' q q' errs errs'; simpl.
  - intros [= <- <- <-]. exists [q], []. split_and!; try done.
    + by rewrite app_nil_r.
    + intros [|j] qj; [by intros [= <-] | done].
  - destruct (parseField _ _ _ _) as [[[v1 q1] e1]|] eqn:Hround; simpl; [|done].
    destruct (parseFields _ _ _ _ _) as [[[rest' q2] errs2]|] eqn:Hrest;
      simpl; [|done].
    intros [= <- <- <-].
    destruct (IH _ _ _ _ _ _ Hrest) as (qs & es & Hlen & Hq0 & Herrs & Hdom & Hall).
    pose proof (parseField_inv _ _ _ _ _ _ _ Hround) as (Ht & Hc & Hdom1 & _).
    exists (q :: qs), (e1 :: es). split_and!.
    + simpl. by rewrite Hlen.
    + done.
    + rewrite Herrs. destruct e1; simpl; [by rewrite <- app_assoc | done].
    + intros [|j] qj; simpl; [by intros [= <-] |].
      intros Hqj k Hk. eapply Hdom; [done | by apply Hdom1].
    + intros [|j] f d0; simpl.
      * intros [= <- <-]. exists q, q1, (vData v1), e1.
        split_and!; try done.
        rewrite Nat.add_0_r, Hround. do 3 f_equal.
        by apply (fieldValue_eta fieldT d).
      * intros Hj. destruct (Hall j f d0 Hj) as (qj & qj' & d' & e & H1 & H2 & H3 & H4 & H5).
        exists qj, qj', d', e. split_and!; try done.
        by replace (i + S j)%nat with (S i + j)%nat by lia.
Qed.

Lemma admissible_reaches (order : list string) (q : Values) (key : string) :
  admissible order q → is_Some (q !! key) → key ∈ order.
Proof. intros [_ H]. apply H. Qed.

Lemma Value_Set_ok (v x : Value) :
  vCanSet v = true → assignableTo (vType x) (vType v) = true →
  Value_Set v x
    = Returned {| vType := vType v; vCanSet := vCanSet v; vData := vData x |}.
Proof. unfold Value_Set. by intros -> ->. Qed.

Lemma assignableTo_refl (t : Typ) : assignableTo t t = true.
Proof. unfold assignableTo. by rewrite bool_decide_eq_true_2. Qed.






(** ** Aggregation of the coercion errors *)


(** ** Allocation of the list and map fields *)

(** Allocation where the loop of [Parse] finds a match. When [Parse]
    returns on a struct, a list or map field whose effective name is the
    lower-cased name of an entry of the query is not nil, provided the
    iteration of its round reaches that entry, as every iteration over the
    query map does. With [Embed Slice] and the query [Embed=] (an empty
    value) the field is the empty slice and there is no error. *)
Theorem Parse_allocates_matched_containers :
  (∀ (orders : nat → list string) (t t' : Typ)
      (fields fields' : list (StructField * Data)) (queryValues : Values)
      (err : option GoError) (j : nat) (fieldT : StructField) (d : Data)
      (key : string),
     Parse orders (Dyn t (Some fields)) queryValues
       = Returned (Dyn t' (Some fields'), err) →
     err ≠ Some ErrWrongDestType →
     fields !! j = Some (fieldT, d) →
     isContainer (typeKind (FieldType fieldT)) = true →
     is_Some (queryValues !! key) →
     strings_ToLower key = effectiveName fieldT →
     key ∈ orders j →
     ∃ d', fields' !! j = Some (fieldT, d') ∧ d' ≠ DNil)
  ∧ Parse (λ _, ["Embed"; "embed"])
      (Dyn testStructPtr (Some [(testEmbed, DNil)])) {["Embed" := [""]]}
    = Returned (Dyn testStructPtr (Some [(testEmbed, DSlice [])]), None).
Proof.
  split; [|by vm_compute].
  intros orders t t' fields fields' q err j fieldT d key
    HParse Hshape Hj Hcont Hq Hkey Hin.
  unfold Parse in HParse.
  destruct (_ || _); [by simplify_eq|].
  destruct (parseFields _ _ _ _ _) as [[[fs q'] errs]|] eqn:Hfields;
    simpl in HParse; [|done].
  assert (fields' = fs) as -> by (by case_bool_decide; simplify_eq).
  destruct (parseFields_rounds _ _ _ _ _ _ _ _ Hfields)
    as (qs & es & _ & _ & _ & Hdom & Hall).
  destruct (Hall j fieldT d Hj) as (qj & qj' & d' & e & H1 & _ & _ & H4 & H5).
  exists d'. split; [done|].
  apply parseField_inv in H5 as (_ & _ & _ & _ & Halloc).
  specialize (Halloc key Hin (Hdom j qj H1 key Hq) Hkey Hcont).
  intros ->. by simpl in Halloc.
Qed.

(** ** Scalar fields and repeated parameters *)

Lemma Values_Get_sameHeads (q1 q2 : Values) (k : string) :
  sameHeads q1 q2 → Values_Get q1 k = Values_Get q2 k.
Proof.
  intros H. specialize (H k). unfold Values_Get.
  destruct (q1 !! k) as [[|x1 l1]|], (q2 !! k) as [[|x2 l2]|];
    by simplify_eq/=.
Qed.

Lemma sameHeads_insert (q1 q2 : Values) (k : string) (l1 l2 : list string) :
  sameHeads q1 q2 → head l1 = head l2 →
  sameHeads (<[k := l1]> q1) (<[k := l2]> q2).
Proof.
  intros Hq Hl k'. rewrite !lookup_insert. case_decide; [|done].
  simpl. by rewrite Hl.
Qed.

(** On a scalar field the body only copies the values of a matching key
    under its lower-cased name. *)
Lemma rangeBody_scalar (fieldName sep key : string) (val : list string)
    (vv : Value) (q : Values) :
  isContainer (Value_Kind vv) = false →
  rangeBody fieldName sep key val (vv, q) =
    Returned (vv, if bool_decide (fieldName ≠ strings_ToLower key) then q
                  else <[strings_ToLower key := val]> q).
Proof.
  intros Hk. unfold rangeBody. case_bool_decide; [done|].
  by destruct (Value_Kind vv).
Qed.

Lemma rangeValues_sameHeads (fieldName sep : string) (order : list string)
    (vv : Value) (q1 q2 : Values) :
  isContainer (Value_Kind vv) = false → sameHeads q1 q2 →
  ∃ q1' q2',
    rangeValues order (rangeBody fieldName sep) (vv, q1) = Returned (vv, q1')
    ∧ rangeValues order (rangeBody fieldName sep) (vv, q2) = Returned (vv, q2')
    ∧ sameHeads q1' q2'.
Proof.
  intros Hk. revert q1 q2.
  induction order as [|key order IH]; intros q1 q2 Hq; simpl; [by eauto|].
  pose proof (Hq key) as Hkey.
  destruct (q1 !! key) as [l1|], (q2 !! key) as [l2|]; simplify_eq/=;
    [|by apply IH].
  rewrite !rangeBody_scalar by done. simpl.
  case_bool_decide; apply IH; [done|]. by apply sameHeads_insert.
Qed.

(** A state that the body leaves as it is, whatever the key, is the state
    the loop returns. *)
Lemma rangeValues_fixpoint (fieldName sep : string) (order : list string)
    (vv : Value) (q : Values) :
  (∀ key val, q !! key = Some val →
     rangeBody fieldName sep key val (vv, q) = Returned (vv, q)) →
  rangeValues order (rangeBody fieldName sep) (vv, q) = Returned (vv, q).
Proof.
  intros Hfix. induction order as [|key order IH]; simpl; [done|].
  destruct (q !! key) as [val|] eqn:Hval; [|done].
  by rewrite (Hfix key val Hval).
Qed.

(** C10. For a scalar field, the round of [Parse] gives the same field and
    the same error when a parameter carries the values [x :: rest] and when
    it carries [x] alone: the values after the first are ignored. When the
    parameter is the field's effective name, and no other name of the query
    lower-cases to it, the raw value handed to the coercer is [x]. *)
Theorem scalar_uses_first_value (order : list string) (fieldT : StructField)
    (d : Data) (q : Values) (key x : string) (rest : list string) :
  isContainer (typeKind (FieldType fieldT)) = false →
  fieldResult (parseField order fieldT (fieldValue fieldT d)
                 (<[key := x :: rest]> q))
    = fieldResult (parseField order fieldT (fieldValue fieldT d)
                     (<[key := [x]]> q))
  ∧ (key = effectiveName fieldT →
     (∀ k, is_Some (q !! k) → strings_ToLower k = key → k = key) →
     fieldResult (parseField order fieldT (fieldValue fieldT d)
                    (<[key := x :: rest]> q))
       = if bool_decide (x = "") then Returned (fieldValue fieldT d, None)
         else bindValue fieldT (fieldValue fieldT d) x).
Proof.
  intros Hk. split.
  - assert (sameHeads (<[key := x :: rest]> q) (<[key := [x]]> q)) as Hq
      by (by apply sameHeads_insert).
    destruct (rangeValues_sameHeads (effectiveName fieldT)
                (getSeparator fieldT) order (fieldValue fieldT d) _ _ Hk Hq)
      as (q1' & q2' & H1 & H2 & Hq').
    unfold parseField. rewrite H1, H2. simpl.
    rewrite (Values_Get_sameHeads _ _ _ Hq').
    case_bool_decide; [done|].
    by destruct (bindValue _ _ _) as [[v e]|].
  - intros -> Hother. unfold parseField.
    rewrite rangeValues_fixpoint.
    + simpl. unfold Values_Get. rewrite lookup_insert_eq.
      case_bool_decide; [done|].
      by destruct (bindValue _ _ _) as [[v e]|].
    + intros k val Hval. rewrite rangeBody_scalar by done.
      case_bool_decide as Hm; [done|].
      do 2 f_equal.
      assert (k = effectiveName fieldT) as ->.
      { destruct (decide (k = effectiveName fieldT)) as [|Hne]; [done|].
        rewrite lookup_insert_ne in Hval by done. by apply Hother. }
      rewrite <- Hm. by apply insert_id.
Qed.

(** ** Matching of parameter names *)

Lemma trimRightBytes_cons (P : ascii → bool) (c : ascii) (s : string) :
  trimRightBytes P (String c s) =
    match trimRightBytes P s with
    | EmptyString => if P c then EmptyString else String c EmptyString
    | t => String c t
    end.
Proof. done. Qed.

Lemma trimLeftBytes_idem (P : ascii → bool) (s : string) :
  trimLeftBytes P (trimLeftBytes P s) = trimLeftBytes P s.
Proof.
  induction s as [|c s IH]; simpl; [done|].
  destruct (P c) eqn:Hc; [done|]. simpl. by rewrite Hc.
Qed.

Lemma trimRightBytes_idem (P : ascii → bool) (s : string) :
  trimRightBytes P (trimRightBytes P s) = trimRightBytes P s.
Proof.
  induction s as [|c s IH]; [done|]. rewrite trimRightBytes_cons.
  destruct (trimRightBytes P s) as [|c' t] eqn:Ht.
  - destruct (P c) eqn:Hc; [done|]. rewrite trimRightBytes_cons. simpl.
    by rewrite Hc.
  - rewrite trimRightBytes_cons, IH. done.
Qed.

Lemma trimRightBytes_trimLeft (P : ascii → bool) (s : string) :
  trimRightBytes P s = s →
  trimRightBytes P (trimLeftBytes P s) = trimLeftBytes P s.
Proof.
  induction s as [|c s IH]; [done|]. intros Hs. simpl.
  destruct (P c) eqn:Hc; [|done]. apply IH.
  rewrite trimRightBytes_cons, Hc in Hs.
  destruct (trimRightBytes P s); [done | congruence].
Qed.

(** Trimming an already trimmed string does nothing, given that such is the
    case of the rune-level routine. *)
Lemma strings_Trim_idem (s cutset : string) :
  (∀ s c, trimRunes (trimRunes s c) c = trimRunes s c) →
  strings_Trim (strings_Trim s cutset) cutset = strings_Trim s cutset.
Proof.
  intros Hrunes. unfold strings_Trim.
  destruct (bool_decide (cutset = "")) eqn:Hc.
  { rewrite !orb_true_r. done. }
  rewrite !orb_false_r.
  destruct (bool_decide (s = "")) eqn:Hs; [by rewrite Hs|].
  destruct (isASCII cutset).
  - destruct (bool_decide (trimLeftBytes _ _ = "")); [done|].
    rewrite trimRightBytes_trimLeft by apply trimRightBytes_idem.
    apply trimLeftBytes_idem.
  - destruct (bool_decide (trimRunes _ _ = "")); [done | apply Hrunes].
Qed.

Lemma allocate_inv (vv v1 : Value) :
  allocate vv = Returned v1 →
  vType v1 = vType vv ∧ vCanSet v1 = vCanSet vv
  ∧ (isContainer (Value_Kind vv) = true → Value_IsNil v1 = false)
  ∧ allocate v1 = Returned v1.
Proof.
  unfold allocate, Value_Kind, Value_IsNil, MakeMap, MakeSlice, ValueOf.
  destruct (typeKind (vType vv)) eqn:Hkind;
    try (intros [= <-]; by rewrite Hkind).
  all: destruct (vData vv) eqn:Hd;
    try (intros [= <-]; by rewrite Hkind, Hd).
  all: intros Hs; apply Value_Set_inv in Hs as (Ht & Hc & Hd1);
    simpl in Hd1; by rewrite Ht, Hkind, Hd1.
Qed.

(** The body on a matching key that carries one value. *)
Lemma rangeBody_match (fieldT : StructField) (key y : string) (vv : Value)
    (q : Values) :
  vType vv = FieldType fieldT →
  stringShaped (FieldType fieldT) = true →
  strings_ToLower key = effectiveName fieldT →
  rangeBody (effectiveName fieldT) (getSeparator fieldT) key [y] (vv, q) =
    v1 ←! allocate vv;
    Returned (v1, <[effectiveName fieldT := [effectiveValue fieldT vv y]]> q).
Proof.
  intros Ht Hshape Hkey.
  unfold rangeBody, allocate, effectiveValue, stringShaped in *.
  rewrite Hkey, bool_decide_eq_false_2 by (by intros []).
  unfold Value_Kind in *. rewrite Ht.
  destruct (typeKind (FieldType fieldT)) eqn:Hkind; try done.
  - destruct (if Value_IsNil vv then _ else _) as [v1|]; simpl; [|done].
    destruct (typeElem (FieldType fieldT)); [|done].
    by rewrite bool_decide_eq_false_2
      by (apply bool_decide_eq_true in Hshape; by intros []).
  - destruct (if Value_IsNil vv then _ else _) as [v1|]; simpl; [|done].
    destruct (typeKey (FieldType fieldT)); [|done].
    destruct (typeElem (FieldType fieldT)); [|done].
    apply andb_true_iff in Hshape as [Hn He].
    apply bool_decide_eq_true in Hn, He.
    by rewrite !bool_decide_eq_false_2 by (by intros []).
Qed.

Lemma effectiveValue_kind (fieldT : StructField) (vv v1 : Value) (x : string) :
  vType v1 = vType vv → effectiveValue fieldT v1 x = effectiveValue fieldT vv x.
Proof. unfold effectiveValue, Value_Kind. by intros ->. Qed.

Lemma effectiveValue_idem (fieldT : StructField) (vv : Value) (x : string) :
  (∀ s c, trimRunes (trimRunes s c) c = trimRunes s c) →
  effectiveValue fieldT vv (effectiveValue fieldT vv x)
    = effectiveValue fieldT vv x.
Proof.
  intros Hrunes. unfold effectiveValue.
  destruct (isContainer _); [by apply strings_Trim_idem | done].
Qed.

(** The loop on a query in which one name matches the field and carries one
    value: whatever the order, it allocates the field and leaves the
    effective value under the field's name. *)
Lemma rangeValues_single (order : list string) (fieldT : StructField)
    (key x : string) (vv : Value) (q : Values) :
  (∀ s c, trimRunes (trimRunes s c) c = trimRunes s c) →
  vType vv = FieldType fieldT →
  stringShaped (FieldType fieldT) = true →
  strings_ToLower key = effectiveName fieldT →
  (∀ k, is_Some (q !! k) → strings_ToLower k ≠ effectiveName fieldT) →
  key ∈ order →
  rangeValues order (rangeBody (effectiveName fieldT) (getSeparator fieldT))
    (vv, <[key := [x]]> q) =
    v1 ←! allocate vv;
    Returned (v1, <[effectiveName fieldT := [effectiveValue fieldT vv x]]>
                    (<[key := [x]]> q)).
Proof.
  intros Hrunes Ht Hshape Hkey Hother.
  set (fn := effectiveName fieldT). set (eff := effectiveValue fieldT vv x).
  set (q0 := <[key := [x]]> q).
  assert (∀ v1 order', allocate vv = Returned v1 →
            rangeValues order' (rangeBody fn (getSeparator fieldT))
              (v1, <[fn := [eff]]> q0) = Returned (v1, <[fn := [eff]]> q0))
    as Hfix.
  { intros v1 order' Hv1. apply rangeValues_fixpoint. intros k val Hval.
    apply allocate_inv in Hv1 as (Ht1 & _ & _ & Hv1).
    destruct (decide (strings_ToLower k = fn)) as [Hk|Hk].
    - assert (∃ y, val = [y] ∧ effectiveValue fieldT v1 y = eff) as (y & -> & Hy).
      { rewrite lookup_insert in Hval. case_decide.
        - simplify_eq. exists eff. split; [done|]. subst eff.
          rewrite (effectiveValue_kind _ _ _ _ Ht1).
          by apply effectiveValue_idem.
        - unfold q0 in Hval. rewrite lookup_insert in Hval. case_decide.
          + simplify_eq. exists x. split; [done|].
            by apply effectiveValue_kind.
          + by destruct (Hother k (mk_is_Some _ _ Hval)). }
      subst fn. rewrite rangeBody_match by congruence.
      rewrite Hv1. simpl. by rewrite Hy, insert_insert_eq.
    - unfold rangeBody. by rewrite bool_decide_eq_true_2 by congruence. }
  induction order as [|k order IH]; intros Hin; [by apply elem_of_nil in Hin|].
  simpl. destruct (decide (k = key)) as [->|Hne].
  - unfold q0 at 1. rewrite lookup_insert_eq.
    subst fn. rewrite rangeBody_match by done.
    destruct (allocate vv) as [v1|] eqn:Hv1; simpl; [|done].
    by apply Hfix.
  - apply elem_of_cons in Hin as [->|Hin]; [done|].
    unfold q0 at 1. rewrite lookup_insert_ne by done.
    destruct (q !! k) as [val|] eqn:Hval; [|by apply IH].
    unfold rangeBody at 1.
    rewrite bool_decide_eq_true_2; [by apply IH|].
    intros Heq. by destruct (Hother k (mk_is_Some _ _ Hval)).
Qed.

Lemma parseField_single (order : list string) (fieldT : StructField)
    (key x : string) (d : Data) (q : Values) :
  (∀ s c, trimRunes (trimRunes s c) c = trimRunes s c) →
  stringShaped (FieldType fieldT) = true →
  strings_ToLower key = effectiveName fieldT →
  (∀ k, is_Some (q !! k) → strings_ToLower k ≠ effectiveName fieldT) →
  key ∈ order →
  fieldResult (parseField order fieldT (fieldValue fieldT d) (<[key := [x]]> q))
    = decodeOne fieldT (fieldValue fieldT d) x.
Proof.
  intros Hrunes Hshape Hkey Hother Hin. unfold parseField, decodeOne.
  rewrite rangeValues_single by done.
  destruct (allocate _) as [v1|] eqn:Hv1; simpl; [|done].
  apply allocate_inv in Hv1 as (Ht1 & _ & _ & _).
  unfold Values_Get. rewrite lookup_insert_eq.
  rewrite (effectiveValue_kind _ _ _ _ Ht1).
  case_bool_decide; [done|].
  by destruct (bindValue _ _ _) as [[v e]|].
Qed.

(** The match of a parameter name is case-insensitive where the effective
    name is in lower case, as the lower-cased identifier of a field is: a
    parameter name is lower-cased before it is compared with the effective
    name. For a scalar field, or a list or map field of strings, two
    queries that supply one raw value each, under names that lower-case to
    the effective name, decode identically, whatever the case of the two
    names and the iteration orders. *)
Theorem parameter_names_match_lower_cased (order1 order2 : list string)
    (fieldT : StructField) (d : Data) (q : Values) (key1 key2 x : string) :
  (∀ s c, trimRunes (trimRunes s c) c = trimRunes s c) →
  stringShaped (FieldType fieldT) = true →
  strings_ToLower key1 = effectiveName fieldT →
  strings_ToLower key2 = effectiveName fieldT →
  (∀ k, is_Some (q !! k) → strings_ToLower k ≠ effectiveName fieldT) →
  key1 ∈ order1 → key2 ∈ order2 →
  fieldResult (parseField order1 fieldT (fieldValue fieldT d)
                 (<[key1 := [x]]> q))
    = fieldResult (parseField order2 fieldT (fieldValue fieldT d)
                     (<[key2 := [x]]> q)).
Proof.
  intros Hrunes Hshape Hkey1 Hkey2 Hother Hin1 Hin2.
  by rewrite !parseField_single.
Qed.

(** ** Splitting on a separator of one byte *)

Lemma strings_HasPrefix_empty (s : string) : strings_HasPrefix s "" = true.
Proof. by destruct s. Qed.

Lemma strings_Index_byte_cons (c d : ascii) (s : string) :
  strings_Index (String d s) (String c "") =
    if bool_decide (d = c) then Some 0%nat
    else S <$> strings_Index s (String c "").
Proof.
  rewrite strings_Index_unfold. simpl. rewrite strings_HasPrefix_empty.
  rewrite andb_true_r. do 2 case_bool_decide; congruence.
Qed.

Lemma genSplit_None (n : nat) (s sep : string) :
  strings_Index s sep = None → genSplit n s sep = [s].
Proof. destruct n; simpl; [done|]. by intros ->. Qed.

Lemma genSplit_S (n : nat) (s sep : string) :
  genSplit (S n) s sep =
    match strings_Index s sep with
    | None => [s]
    | Some m =>
        sliceTo m s :: genSplit n (sliceFrom (m + String.length sep) s) sep
    end.
Proof. done. Qed.

Lemma genSplit_byte (c : ascii) (n : nat) (s : string) :
  (String.length s ≤ n)%nat → genSplit n s (String c "") = splitByte c s.
Proof.
  revert n. induction s as [|d s IH]; intros n Hn.
  - by apply genSplit_None.
  - destruct n as [|n]; [simpl in Hn; lia|]. simpl in Hn.
    rewrite genSplit_S, strings_Index_byte_cons. cbn [splitByte].
    case_bool_decide as Hd.
    + simpl. rewrite IH by lia. done.
    + rewrite <- (IH n) by lia.
      destruct (strings_Index s (String c "")) as [m|] eqn:Hm.
      * destruct n as [|n'].
        { destruct s; [by rewrite strings_Index_empty in Hm | simpl in Hn; lia]. }
        rewrite (genSplit_S n' s), Hm.
        apply strings_Index_Some in Hm as (_ & Hle & _).
        remember (S n') as k eqn:Hk. simpl. f_equal. subst k.
        apply genSplit_fuel; [done| |]; rewrite sliceFrom_length; simpl; lia.
      * simpl. by rewrite genSplit_None.
Qed.

Lemma strings_Split_byte (c : ascii) (s : string) :
  strings_Split s (String c "") = splitByte c s.
Proof. unfold strings_Split. simpl. by apply genSplit_byte. Qed.

Lemma splitByte_nonempty (c : ascii) (s : string) : splitByte c s ≠ [].
Proof.
  destruct s as [|d s]; simpl; [done|].
  case_bool_decide; [done|]. by destruct (splitByte c s).
Qed.

Lemma splitByte_app (c : ascii) (a b : string) :
  splitByte c (a +:+ String c b) = splitByte c a ++ splitByte c b.
Proof.
  induction a as [|d a IH]; simpl.
  - by rewrite bool_decide_eq_true_2.
  - case_bool_decide; [by rewrite IH|]. rewrite IH.
    pose proof (splitByte_nonempty c a). by destruct (splitByte c a).
Qed.

Lemma splitByte_none (c : ascii) (s : string) :
  containsByte s c = false → splitByte c s = [s].
Proof.
  induction s as [|d s IH]; simpl; [done|].
  intros [Hd Hs]%orb_false_iff. apply bool_decide_eq_false in Hd.
  rewrite bool_decide_eq_false_2 by congruence. by rewrite IH.
Qed.

(** Splitting what [strings.Join] has joined gives the pieces of each
    member, in order. *)
Lemma splitByte_Join_concat (c : ascii) (ts : list string) :
  ts ≠ [] →
  splitByte c (strings_Join ts (String c "")) = mjoin (splitByte c <$> ts).
Proof.
  induction ts as [|t ts IH]; [done|]. intros _.
  destruct ts as [|t' ts].
  - simpl. by rewrite app_nil_r.
  - change (strings_Join (t :: t' :: ts) (String c ""))
      with (t +:+ String c (strings_Join (t' :: ts) (String c ""))).
    rewrite splitByte_app, IH by done. done.
Qed.

Lemma splitByte_Join (c : ascii) (ts : list string) :
  ts ≠ [] → Forall (λ t, containsByte t c = false) ts →
  splitByte c (strings_Join ts (String c "")) = ts.
Proof.
  intros Hne Hall. rewrite splitByte_Join_concat by done.
  clear Hne. induction Hall as [|t ts Ht _ IH]; [done|].
  rewrite fmap_cons. simpl. by rewrite splitByte_none, IH.
Qed.

(** A piece holds bytes of the string only, and never the separator. *)
Lemma splitByte_pieces (c b : ascii) (s t : string) :
  t ∈ splitByte c s → containsByte t b = true →
  containsByte s b = true ∧ b ≠ c.
Proof.
  revert t. induction s as [|d s IH]; intros t; simpl.
  - intros Ht. apply list_elem_of_singleton in Ht as ->. done.
  - case_bool_decide as Hd.
    + intros [->|Ht]%elem_of_cons Hb; [done|].
      destruct (IH t Ht Hb) as [-> ?]. by rewrite orb_true_r.
    + pose proof (splitByte_nonempty c s).
      destruct (splitByte c s) as [|t0 ts] eqn:Hs; [done|].
      intros [->|Ht]%elem_of_cons; simpl.
      * intros [Hb|Hb]%orb_true_iff.
        -- apply bool_decide_eq_true in Hb as ->.
           by rewrite bool_decide_eq_true_2.
        -- destruct (IH t0 (list_elem_of_here _ _) Hb) as [-> ?].
           by rewrite orb_true_r.
      * intros Hb.
        destruct (IH t (list_elem_of_further _ _ _ Ht) Hb) as [-> ?].
        by rewrite orb_true_r.
Qed.

(** ** The annotation of a field *)

Lemma containsByte_app (a b : string) (c : ascii) :
  containsByte (a +:+ b) c = containsByte a c || containsByte b c.
Proof.
  induction a as [|d a IH]; simpl; [done|]. by rewrite IH, orb_assoc.
Qed.

Lemma plainOption_inv (o : string * string) :
  plainOption o = true →
  containsByte o.1 " "%char = false ∧ containsByte o.1 ":"%char = false
  ∧ containsByte o.2 " "%char = false ∧ containsByte o.2 ":"%char = false.
Proof.
  unfold plainOption. rewrite !andb_true_iff, !negb_true_iff. tauto.
Qed.

Lemma encodeOption_split (o : string * string) :
  plainOption o = true →
  strings_Split (encodeOption o) ":" = [o.1; o.2]
  ∧ containsByte (encodeOption o) " "%char = false.
Proof.
  intros (H1 & H2 & H3 & H4)%plainOption_inv. unfold encodeOption. split.
  - rewrite strings_Split_byte.
    change (o.1 +:+ ":" +:+ o.2) with (o.1 +:+ String ":"%char o.2).
    by rewrite splitByte_app, !splitByte_none.
  - rewrite !containsByte_app, H1, H3. done.
Qed.

Lemma getTag_range_encode (tag : string) (opts : list (string * string)) :
  Forall (λ o, plainOption o = true) opts →
  getTag_range tag (encodeOption <$> opts) = optionValue tag opts.
Proof.
  induction 1 as [|[k v] opts Ho _ IH]; [done|].
  rewrite fmap_cons. cbn [getTag_range optionValue].
  destruct (encodeOption_split _ Ho) as [-> _]. simpl.
  by rewrite IH.
Qed.

Lemma strings_Join_empty (t : string) (ts : list string) (sep : string) :
  strings_Join (t :: ts) sep = "" → t = "".
Proof.
  destruct ts; simpl; [done|]. destruct t; [done | discriminate].
Qed.

(** [getTag] on the text of well-formed options. *)
Lemma getTag_encodeOptions (tag : string) (sField : StructField)
    (opts : list (string * string)) :
  StructTag_Get (Tag sField) "qparams" = encodeOptions opts →
  Forall (λ o, plainOption o = true) opts →
  getTag tag sField = optionValue tag opts.
Proof.
  intros Htag Hplain. unfold getTag. rewrite Htag.
  destruct opts as [|o opts]; [done|].
  rewrite bool_decide_eq_false_2.
  - unfold encodeOptions. rewrite strings_Split_byte, splitByte_Join.
    + by apply getTag_range_encode.
    + done.
    + apply Forall_fmap. eapply Forall_impl; [exact Hplain|].
      intros o' Ho'. by apply encodeOption_split.
  - unfold encodeOptions. rewrite fmap_cons.
    intros Hempty%strings_Join_empty. unfold encodeOption in Hempty.
    destruct (o.1); discriminate.
Qed.

(** The value [getTag] returns is empty or the second of the two parts, at
    the colon, of a space-separated token of the annotation. *)
Lemma getTag_range_inv (tag : string) (ts : list string) :
  getTag_range tag ts = "" ∨
  ∃ t k, t ∈ ts ∧ strings_Split t ":" = [k; getTag_range tag ts].
Proof.
  induction ts as [|t ts IH]; [by left|]. cbn [getTag_range].
  assert (getTag_range tag ts = "" ∨
          ∃ t0 k, t0 ∈ t :: ts
                  ∧ strings_Split t0 ":" = [k; getTag_range tag ts]) as IH'.
  { destruct IH as [?|(t0 & k & ? & ?)]; [by left|].
    right. exists t0, k. split; [by right | done]. }
  destruct (strings_Split t ":") as [|k [|v [|? ?]]] eqn:Hsplit; try done.
  case_bool_decide; [|done].
  right. exists t, k. split; [by left | done].
Qed.

Lemma getTag_plain (tag : string) (sField : StructField) (b : ascii) :
  containsByte (getTag tag sField) b = true → b ≠ " "%char ∧ b ≠ ":"%char.
Proof.
  unfold getTag. case_bool_decide as Hempty; [by rewrite Hempty|].
  set (ts := strings_Split _ " ").
  destruct (getTag_range_inv tag ts) as [->|(t & k & Ht & Hsplit)]; [done|].
  intros Hb.
  assert (getTag_range tag ts ∈ splitByte ":" t) as Hv.
  { rewrite <- strings_Split_byte, Hsplit. right. by left. }
  destruct (splitByte_pieces _ _ _ _ Hv Hb) as [Hbt ?].
  unfold ts in Ht. rewrite strings_Split_byte in Ht.
  destruct (splitByte_pieces _ _ _ _ Ht Hbt) as [_ ?]. done.
Qed.

Lemma containsByte_false (s : string) (b : ascii) :
  (containsByte s b = true → False) → containsByte s b = false.
Proof. by destruct (containsByte s b); [intros []|]. Qed.

(** X1. [getTag] reads the annotation as a list of [option:value] pairs
    separated by single spaces: when the options and their values hold
    neither a space nor a colon, it returns the value of the first pair
    with the option asked for, and the empty string when there is none or
    when the annotation is missing. *)
Theorem getTag_first_option (tag : string) (sField : StructField)
    (opts : list (string * string)) :
  StructTag_Get (Tag sField) "qparams" = encodeOptions opts →
  Forall (λ o, plainOption o = true) opts →
  getTag tag sField = optionValue tag opts.
Proof. apply getTag_encodeOptions. Qed.

(** X2. Whatever the annotation, the value [getTag] returns holds no space
    and no colon: a separator never holds one, and an operator of the
    vocabulary holds neither, nor a comma. *)
Theorem getTag_never_holds_delimiters (tag : string) (sField : StructField) :
  containsByte (getTag tag sField) " "%char = false
  ∧ containsByte (getTag tag sField) ":"%char = false
  ∧ containsByte (getSeparator sField) " "%char = false
  ∧ containsByte (getSeparator sField) ":"%char = false
  ∧ Forall (λ op, containsByte op ","%char = false
                  ∧ containsByte op " "%char = false
                  ∧ containsByte op ":"%char = false)
      (getOperators sField).
Proof.
  assert (∀ tg, containsByte (getTag tg sField) " "%char = false
                ∧ containsByte (getTag tg sField) ":"%char = false) as Htag.
  { intros tg. split; apply containsByte_false; intros Hb;
      by destruct (getTag_plain _ _ _ Hb). }
  split_and!; try apply Htag.
  - unfold getSeparator. case_bool_decide; [apply Htag | done].
  - unfold getSeparator. case_bool_decide; [apply Htag | done].
  - unfold getOperators, mapOpsTagSeparator. case_bool_decide; [|done].
    apply Forall_forall. intros op Hop. rewrite strings_Split_byte in Hop.
    destruct (Htag "ops") as [H1 H2].
    split_and!; apply containsByte_false; intros Hb;
      destruct (splitByte_pieces _ _ _ _ Hop Hb) as [Hc ?]; congruence.
Qed.

(** X3. When the annotation is a list of well-formed options, the
    separator is the value of [sep], the comma when it is empty or missing,
    and the vocabulary is the value of [ops] split at the commas: operators
    written [ops:o1,o2,...], none of them holding a comma, come back as
    the list [o1; o2; ...] in the order written. *)
Theorem getOperators_in_order (sField : StructField)
    (opts : list (string * string)) (ops : list string) :
  StructTag_Get (Tag sField) "qparams" = encodeOptions opts →
  Forall (λ o, plainOption o = true) opts →
  optionValue "ops" opts = strings_Join ops "," →
  strings_Join ops "," ≠ "" →
  Forall (λ op, containsByte op ","%char = false) ops →
  getOperators sField = ops
  ∧ getSeparator sField =
      if bool_decide (optionValue "sep" opts ≠ "") then optionValue "sep" opts
      else ",".
Proof.
  intros Htag Hplain Hops Hne Hall. unfold getOperators, getSeparator.
  rewrite !(getTag_encodeOptions _ _ opts) by done. split; [|done].
  rewrite Hops, bool_decide_eq_true_2 by done.
  unfold mapOpsTagSeparator. rewrite strings_Split_byte.
  apply splitByte_Join; [|done]. by intros ->.
Qed.

(** ** The text of a [TypeConvErrors] *)

Lemma TypeConvErrors_Error_range_app (e : list string) (str : string) :
  TypeConvErrors_Error_range e str = str +:+ TypeConvErrors_Error_range e "".
Proof.
  revert str. induction e as [|x e IH]; intros str; simpl.
  - by rewrite append_empty_r.
  - rewrite IH, (IH (x +:+ newline)). by rewrite !append_assoc.
Qed.

Lemma TypeConvErrors_Error_cons (x : string) (e : list string) :
  TypeConvErrors_Error (x :: e) = x +:+ newline +:+ TypeConvErrors_Error e.
Proof.
  unfold TypeConvErrors_Error. simpl.
  by rewrite TypeConvErrors_Error_range_app, append_assoc.
Qed.

(** X4. The text of a [TypeConvErrors] is its messages in order, each
    followed by a newline: the text of two collections appended is the two
    texts appended, and when no message holds a newline, splitting the text
    at the newlines gives the messages back, followed by one empty
    string. *)
Theorem TypeConvErrors_Error_lines (e1 e2 : list string) :
  TypeConvErrors_Error (e1 ++ e2)
    = TypeConvErrors_Error e1 +:+ TypeConvErrors_Error e2
  ∧ (Forall (λ m, containsByte m "010"%char = false) e1 →
     strings_Split (TypeConvErrors_Error e1) newline = e1 ++ [""]).
Proof.
  split.
  - induction e1 as [|x e1 IH]; [done|].
    rewrite <- app_comm_cons, !TypeConvErrors_Error_cons, IH.
    by rewrite !append_assoc.
  - unfold newline. rewrite strings_Split_byte.
    induction 1 as [|x e1 Hx _ IH]; [done|].
    rewrite TypeConvErrors_Error_cons. unfold newline.
    change (x +:+ String "010"%char "" +:+ TypeConvErrors_Error e1)
      with (x +:+ String "010"%char (TypeConvErrors_Error e1)).
    by rewrite splitByte_app, splitByte_none, IH.
Qed.

(** ** Fields that no parameter feeds *)

Lemma rangeValues_no_match (fieldName sep : string) (order : list string)
    (vv : Value) (q : Values) :
  (∀ k, k ∈ order → is_Some (q !! k) → strings_ToLower k ≠ fieldName) →
  rangeValues order (rangeBody fieldName sep) (vv, q) = Returned (vv, q).
Proof.
  induction order as [|key order IH]; intros Hno; simpl; [done|].
  destruct (q !! key) as [val|] eqn:Hval.
  - unfold rangeBody at 1. rewrite bool_decide_eq_true_2.
    + simpl. apply IH. intros k Hk. apply Hno. by right.
    + intros Heq. by apply (Hno key (list_elem_of_here _ _) (mk_is_Some _ _ Hval)).
  - apply IH. intros k Hk. apply Hno. by right.
Qed.

Lemma parseField_unmatched (order : list string) (fieldT : StructField)
    (fieldV : Value) (q : Values) :
  unmatched fieldT q →
  parseField order fieldT fieldV q = Returned (fieldV, q, None).
Proof.
  intros [Hname Hno]. unfold parseField.
  rewrite rangeValues_no_match by (intros k _; apply Hno). simpl.
  unfold Values_Get. by rewrite Hname.
Qed.

Lemma parseFields_unmatched (orders : nat → list string) (i : nat)
    (fields : list (StructField * Data)) (q : Values) (errs : list string) :
  Forall (λ fd, unmatched fd.1 q) fields →
  parseFields orders i fields q errs = Returned (fields, q, errs).
Proof.
  intros Hall. revert i.
  induction Hall as [|[fieldT d] fields Hf _ IH]; intros i; simpl; [done|].
  rewrite parseField_unmatched by done. simpl. by rewrite IH.
Qed.

(** X5. When no entry of the query feeds any field of the struct (no
    parameter name lower-cases to the effective name of a field, and no
    effective name is a parameter name), [Parse] returns nil and leaves
    every field as it was; this holds of every field, settable or not, and
    of every type. *)
Theorem Parse_leaves_unmatched_fields (orders : nat → list string) (t : Typ)
    (fields : list (StructField * Data)) (q : Values) :
  typeKind t = KPtr → typeKind <$> typeElem t = Some KStruct →
  Forall (λ fd, unmatched fd.1 q) fields →
  Parse orders (Dyn t (Some fields)) q = Returned (Dyn t (Some fields), None).
Proof.
  intros Hptr Hstruct Hall. unfold Parse.
  rewrite bool_decide_eq_false_2 by (by intros []).
  rewrite bool_decide_eq_false_2 by (by intros []). simpl.
  by rewrite parseFields_unmatched.
Qed.

(** ** The errors of [Parse] *)

Lemma parseFields_descriptors (orders : nat → list string) (i : nat)
    (fields fields' : list (StructField * Data)) (q q' : Values)
    (errs errs' : list string) :
  parseFields orders i fields q errs = Returned (fields', q', errs') →
  fields'.*1 = fields.*1.
Proof.
  revert i fields' q errs.
  induction fields as [|[fieldT d] fields IH]; intros i fields' q errs; simpl.
  - by intros [= <- <- <-].
  - destruct (parseField _ _ _ _) as [[[v1 q1] e1]|]; simpl; [|done].
    destruct (parseFields _ _ _ _ _) as [[[rest' q2] errs2]|] eqn:Hrest;
      simpl; [|done].
    intros [= <- <- <-]. simpl. f_equal. by eapply IH.
Qed.

Lemma length_omap_id {A} (l : list (option A)) :
  (length (omap id l) ≤ length l)%nat.
Proof. induction l as [|[x|] l IH]; csimpl; simpl; lia. Qed.

(** X7. When [Parse] returns, its error is the sentinel [ErrWrongDestType]
    exactly when the destination is not a pointer to a struct, and the
    destination is then as it was. Otherwise the destination keeps its type
    and the descriptors of its fields, and the error is nil or a
    [TypeConvErrors] that holds at least one message and at most one
    message for each field. *)
Theorem Parse_error_kinds (orders : nat → list string) (dest dest' : Iface)
    (q : Values) (err : option GoError) :
  Parse orders dest q = Returned (dest', err) →
  (err = Some ErrWrongDestType ↔
     ∃ t target, dest = Dyn t target
       ∧ (typeKind t ≠ KPtr ∨ typeKind <$> typeElem t ≠ Some KStruct))
  ∧ (err = Some ErrWrongDestType → dest' = dest)
  ∧ (err ≠ Some ErrWrongDestType →
       ∃ t fields fields',
         dest = Dyn t (Some fields) ∧ dest' = Dyn t (Some fields')
         ∧ fields'.*1 = fields.*1
         ∧ ∀ msgs, err = Some (TypeConvErrors msgs) →
             msgs ≠ [] ∧ (length msgs ≤ length fields)%nat).
Proof.
  destruct dest as [|t target]; [done|]. unfold Parse.
  destruct (bool_decide (typeKind t ≠ KPtr)
            || bool_decide (typeKind <$> typeElem t ≠ Some KStruct)) eqn:Hshape.
  - intros [= <- <-]. split_and!; [|done|done].
    split; [intros _|done]. exists t, target. split; [done|].
    apply orb_true_iff in Hshape as [H|H]; apply bool_decide_eq_true in H;
      [by left | by right].
  - apply orb_false_iff in Hshape as [H1 H2].
    apply bool_decide_eq_false in H1, H2.
    destruct target as [fields|]; [|done].
    destruct (parseFields _ _ _ _ _) as [[[fs q'] errs]|] eqn:Hfields;
      simpl; [|done].
    intros Hret.
    assert (dest' = Dyn t (Some fs) ∧ err = aggregate errs) as [-> ->].
    { unfold aggregate. by case_bool_decide; simplify_eq. }
    assert (aggregate errs ≠ Some ErrWrongDestType) as Hagg
      by (unfold aggregate; by case_bool_decide).
    split_and!; [|done|].
    + split; [done|]. intros (t0 & tg & [= <- <-] & [?|?]); done.
    + intros _. exists t, fields, fs. split_and!; [done | done | |].
      * by eapply parseFields_descriptors.
      * intros msgs. unfold aggregate. case_bool_decide as Hne; [|done].
        intros [= <-]. split; [done|].
        destruct (parseFields_rounds _ _ _ _ _ _ _ _ Hfields)
          as (qs & es & Hlen & _ & -> & _).
        simpl. rewrite <- Hlen. apply length_omap_id.
Qed.

(** ** What a round reads and writes of the query map *)

(** The body of the loop reads the query map only to write it: its effect
    on any map is its effect on the empty map, written over the map. *)
Lemma rangeBody_factor (fieldName sep key : string) (val : list string)
    (vv : Value) (q : Values) :
  rangeBody fieldName sep key val (vv, q) =
    '(v1, q1) ←! rangeBody fieldName sep key val (vv, ∅);
    Returned (v1, match q1 !! fieldName with
                  | Some x => <[fieldName := x]> q
                  | None => q
                  end).
Proof.
  unfold rangeBody. case_bool_decide as Hkey; [done|].
  assert (strings_ToLower key = fieldName) as ->
    by (by destruct (decide (fieldName = strings_ToLower key))).
  destruct (Value_Kind vv); simpl; rewrite ?lookup_insert_eq; try done.
  - destruct (if Value_IsNil vv then _ else _) as [v1|]; simpl; [|done].
    destruct (typeElem _); [|done].
    case_bool_decide; simpl; by rewrite ?lookup_insert_eq.
  - destruct (if Value_IsNil vv then _ else _) as [v1|]; simpl; [|done].
    destruct (typeKey _); [|done]. destruct (typeElem _); [|done].
    destruct (_ || _); simpl; by rewrite ?lookup_insert_eq.
Qed.

Lemma rangeBody_writes (fieldName sep key : string) (val : list string)
    (vv vv' : Value) (q q' : Values) :
  rangeBody fieldName sep key val (vv, q) = Returned (vv', q') →
  ∀ k, k ≠ fieldName → q' !! k = q !! k.
Proof.
  rewrite rangeBody_factor.
  destruct (rangeBody _ _ _ _ (vv, ∅)) as [[v1 q1]|]; simpl; [|done].
  intros [= <- <-] k Hk. destruct (q1 !! fieldName); [|done].
  by rewrite lookup_insert_ne.
Qed.

(** Two maps that agree on the names a field reads: the names that
    lower-case to its effective name, and the effective name itself. *)
Lemma rangeValues_agree (fieldName sep : string) (order : list string)
    (vv : Value) (q1 q2 : Values) :
  (∀ k, strings_ToLower k = fieldName ∨ k = fieldName → q1 !! k = q2 !! k) →
  match rangeValues order (rangeBody fieldName sep) (vv, q1),
        rangeValues order (rangeBody fieldName sep) (vv, q2) with
  | Returned (v1, q1'), Returned (v2, q2') =>
      v1 = v2 ∧ q1' !! fieldName = q2' !! fieldName
  | Panicked a, Panicked b => a = b
  | _, _ => False
  end.
Proof.
  revert vv q1 q2. induction order as [|key order IH]; intros vv q1 q2 Hq;
    simpl; [split; [done | apply Hq; by right]|].
  destruct (decide (strings_ToLower key = fieldName)) as [Hkey|Hkey].
  - rewrite <- (Hq key) by by left.
    destruct (q1 !! key) as [val|]; [|by apply IH].
    rewrite (rangeBody_factor _ _ _ _ _ q1), (rangeBody_factor _ _ _ _ _ q2).
    destruct (rangeBody _ _ _ _ (vv, ∅)) as [[v1 q0]|]; simpl; [|done].
    apply IH. intros k Hk. destruct (q0 !! fieldName); [|by apply Hq].
    rewrite !lookup_insert. case_decide; [done | by apply Hq].
  - assert (∀ q val, rangeBody fieldName sep key val (vv, q)
                     = Returned (vv, q)) as Hnop.
    { intros q val. unfold rangeBody.
      by rewrite bool_decide_eq_true_2 by congruence. }
    destruct (q1 !! key), (q2 !! key); rewrite ?Hnop; simpl; by apply IH.
Qed.

Lemma parseField_agree (order : list string) (fieldT : StructField)
    (fieldV : Value) (q1 q2 : Values) :
  (∀ k, strings_ToLower k = effectiveName fieldT ∨ k = effectiveName fieldT →
        q1 !! k = q2 !! k) →
  fieldResult (parseField order fieldT fieldV q1)
    = fieldResult (parseField order fieldT fieldV q2).
Proof.
  intros Hq. unfold parseField.
  pose proof (rangeValues_agree (effectiveName fieldT) (getSeparator fieldT)
                order fieldV q1 q2 Hq) as Hloop.
  destruct (rangeValues _ _ (fieldV, q1)) as [[v1 q1']|],
           (rangeValues _ _ (fieldV, q2)) as [[v2 q2']|]; simpl; try done;
    [|by subst].
  destruct Hloop as [-> Hname]. unfold Values_Get. rewrite Hname.
  case_bool_decide; [done|].
  by destruct (bindValue _ _ _) as [[v e]|].
Qed.

Lemma parseField_writes (order : list string) (fieldT : StructField)
    (fieldV v' : Value) (q q' : Values) (err : option string) :
  parseField order fieldT fieldV q = Returned (v', q', err) →
  ∀ k, k ≠ effectiveName fieldT → q' !! k = q !! k.
Proof.
  unfold parseField.
  destruct (rangeValues _ _ _) as [[v1 q1]|] eqn:Hloop; simpl; [|done].
  intros Hret.
  assert (q' = q1) as ->.
  { revert Hret. case_bool_decide; [by intros [= <- <- <-]|].
    destruct (bindValue _ _ _) as [[v e]|]; simpl; [|done].
    by intros [= <- <- <-]. }
  refine (rangeValues_inv (λ s, ∀ k, k ≠ effectiveName fieldT →
                                     s.2 !! k = q !! k)
            _ _ _ (fieldV, q) (v1, q1) _ _ Hloop); [|done].
  intros key val [v2 q2] [v3 q3] Hinv _ Hbody k Hk. simpl in *.
  rewrite (rangeBody_writes _ _ _ _ _ _ _ _ Hbody k Hk). by apply Hinv.
Qed.

(** X8. A round of [Parse] writes the query map under the effective name of
    its field only, and removes no entry: every other parameter is left
    with the values it had. *)
Theorem parseField_writes_own_entry (order : list string)
    (fieldT : StructField) (fieldV v' : Value) (q q' : Values)
    (err : option string) :
  parseField order fieldT fieldV q = Returned (v', q', err) →
  (∀ k, k ≠ effectiveName fieldT → q' !! k = q !! k)
  ∧ (is_Some (q !! effectiveName fieldT) →
     is_Some (q' !! effectiveName fieldT)).
Proof.
  intros Hround. split; [by eapply parseField_writes|].
  apply parseField_inv in Hround as (_ & _ & Hdom & _). apply Hdom.
Qed.

(** ** Independence of the fields *)

Lemma rounds_untouched (orders : nat → list string) (i0 : nat)
    (fields fields' : list (StructField * Data)) (q : Values)
    (qs : list Values) (es : list (option string)) :
  qs !! 0%nat = Some q →
  (∀ j fieldT d, fields !! j = Some (fieldT, d) →
     ∃ qj qj' d' e,
       qs !! j = Some qj ∧ qs !! S j = Some qj' ∧ es !! j = Some e
       ∧ fields' !! j = Some (fieldT, d')
       ∧ parseField (orders (i0 + j)%nat) fieldT (fieldValue fieldT d) qj
           = Returned (fieldValue fieldT d', qj', e)) →
  ∀ j qj k, (j ≤ length fields)%nat → qs !! j = Some qj →
    (∀ i f' d', (i < j)%nat → fields !! i = Some (f', d') →
       effectiveName f' ≠ k) →
    qj !! k = q !! k.
Proof.
  intros Hq0 Hall. induction j as [|j IH]; intros qj k Hj Hqj Hnames.
  - by simplify_eq.
  - destruct (lookup_lt_is_Some_2 fields j) as [[f d] Hf]; [lia|].
    destruct (Hall j f d Hf) as (a & b & d' & e & Ha & Hb & _ & _ & Hround).
    simplify_eq.
    rewrite (parseField_writes _ _ _ _ _ _ _ Hround k)
      by (intros ->; apply (Hnames j f d); [lia | done | done]).
    apply IH; [lia | done |]. intros i f' d0 Hi. apply Hnames. lia.
Qed.

(** X9. A field is decoded from the query as [Parse] received it, whatever
    the fields declared before it, when none of them has its effective
    name, or an effective name that lower-cases to it. [Parse] runs the
    rounds of the fields one after the other, round [i] from the query map
    [qs !! i] that the rounds before it left, and returns the errors [es] of
    the rounds; what round [j] leaves in its field, and the error [es !! j]
    of round [j], are those of the same round run on the original query. *)
Theorem Parse_decodes_fields_independently (orders : nat → list string)
    (t t' : Typ) (fields fields' : list (StructField * Data)) (q : Values)
    (err : option GoError) (j : nat) (fieldT : StructField) (d : Data) :
  Parse orders (Dyn t (Some fields)) q = Returned (Dyn t' (Some fields'), err) →
  err ≠ Some ErrWrongDestType →
  fields !! j = Some (fieldT, d) →
  (∀ i f' d', (i < j)%nat → fields !! i = Some (f', d') →
     effectiveName f' ≠ effectiveName fieldT
     ∧ strings_ToLower (effectiveName f') ≠ effectiveName fieldT) →
  ∃ (qs : list Values) (es : list (option string)),
    length es = length fields
    ∧ qs !! 0%nat = Some q
    ∧ err = aggregate (omap id es)
    ∧ (∀ i f di, fields !! i = Some (f, di) →
         ∃ qi qi' di' ei,
           qs !! i = Some qi ∧ qs !! S i = Some qi' ∧ es !! i = Some ei
           ∧ fields' !! i = Some (f, di')
           ∧ parseField (orders i) f (fieldValue f di) qi
               = Returned (fieldValue f di', qi', ei))
    ∧ ∃ d' e,
        fields' !! j = Some (fieldT, d')
        ∧ es !! j = Some e
        ∧ fieldResult (parseField (orders j) fieldT (fieldValue fieldT d) q)
            = Returned (fieldValue fieldT d', e).
Proof.
  intros HParse Hshape Hj Hnames. unfold Parse in HParse.
  destruct (_ || _); [by simplify_eq|].
  destruct (parseFields _ _ _ _ _) as [[[fs q'] errs]|] eqn:Hfields;
    simpl in HParse; [|done].
  assert (fields' = fs ∧ err = aggregate errs) as (-> & ->).
  { unfold aggregate. by case_bool_decide; simplify_eq. }
  destruct (parseFields_rounds _ _ _ _ _ _ _ _ Hfields)
    as (qs & es & Hlen & Hq0 & Herrs & _ & Hall).
  exists qs, es. split_and!; [done | done | by rewrite Herrs | done |].
  destruct (Hall j fieldT d Hj)
    as (qj & qj' & d' & e & Hqj & _ & He & Hd' & Hround).
  exists d', e. split_and!; [done | done |].
  rewrite (parseField_agree _ _ _ q qj).
  - simpl in Hround. by rewrite Hround.
  - intros k Hk. symmetry.
    eapply (rounds_untouched orders 0 fields fs q qs es Hq0 Hall j);
      [apply Nat.lt_le_incl; by eapply lookup_lt_Some | done |].
    intros i f' d0 Hi Hf' <-.
    destruct (Hnames i f' d0 Hi Hf') as [H1 H2]. by destruct Hk.
Qed.

(** ** Kinds without a case, and kinds without an error *)

Lemma rangeValues_scalar (fieldName sep : string) (order : list string)
    (vv : Value) (q : Values) :
  isContainer (Value_Kind vv) = false →
  ∃ q', rangeValues order (rangeBody fieldName sep) (vv, q) = Returned (vv, q').
Proof.
  intros Hk.
  destruct (rangeValues_sameHeads fieldName sep order vv q q Hk)
    as (q1 & _ & H1 & _); [done | by eauto].
Qed.

(** X10. A field of a kind [Parse] has no case for (neither a string, a
    number, a list nor a map) is never written and never makes [Parse]
    panic or report an error, whatever the query and whether or not the
    field is exported. A round that reports an error is the round of a
    numeric field. *)
Theorem parseField_kinds_without_case (order : list string)
    (fieldT : StructField) (fieldV : Value) (q : Values) :
  (dispatched (Value_Kind fieldV) = false →
   ∃ q', parseField order fieldT fieldV q = Returned (fieldV, q', None))
  ∧ (∀ v' q' m, parseField order fieldT fieldV q = Returned (v', q', Some m) →
       isNumeric (Value_Kind fieldV) = true).
Proof.
  split.
  - intros Hk. unfold parseField.
    assert (isContainer (Value_Kind fieldV) = false) as Hc
      by (revert Hk; destruct (Value_Kind fieldV); simpl; done).
    destruct (rangeValues_scalar (effectiveName fieldT) (getSeparator fieldT)
                order fieldV q Hc) as [q' Hloop].
    rewrite Hloop. simpl. exists q'. case_bool_decide; [done|].
    unfold bindValue. revert Hk.
    destruct (Value_Kind fieldV) eqn:Hkind; simpl; rewrite ?Hkind; done.
  - intros v' q' m. unfold parseField.
    destruct (rangeValues _ _ _) as [[v1 q1]|] eqn:Hloop; simpl; [|done].
    apply rangeValues_keeps in Hloop as (Ht & _).
    case_bool_decide; [done|].
    destruct (bindValue _ _ _) as [[v2 e]|] eqn:Hbind; simpl; [|done].
    intros [= <- <- ->].
    apply bindValue_inv in Hbind as (_ & _ & _ & Herr).
    destruct (Herr m eq_refl) as [_ Hm].
    unfold Value_Kind in *. rewrite Ht in Hm.
    by destruct (typeKind (vType fieldV)).
Qed.

(** ** Scalar fields that convert *)

(** The round of a scalar field whose parameter is its effective name. *)
Lemma parseField_scalar_direct (order : list string) (fieldT : StructField)
    (d : Data) (q : Values) (x : string) (rest : list string) :
  isContainer (typeKind (FieldType fieldT)) = false →
  (∀ k, is_Some (q !! k) → strings_ToLower k = effectiveName fieldT →
        k = effectiveName fieldT) →
  fieldResult (parseField order fieldT (fieldValue fieldT d)
                 (<[effectiveName fieldT := x :: rest]> q))
    = if bool_decide (x = "") then Returned (fieldValue fieldT d, None)
      else bindValue fieldT (fieldValue fieldT d) x.
Proof.
  intros Hk Hother. unfold parseField.
  rewrite rangeValues_fixpoint.
  - simpl. unfold Values_Get. rewrite lookup_insert_eq.
    case_bool_decide; [done|].
    by destruct (bindValue _ _ _) as [[v e]|].
  - intros k val Hval. rewrite rangeBody_scalar by done.
    case_bool_decide as Hm; [done|]. do 2 f_equal.
    assert (k = effectiveName fieldT) as ->.
    { destruct (decide (k = effectiveName fieldT)) as [|Hne]; [done|].
      rewrite lookup_insert_ne in Hval by done. by apply Hother. }
    rewrite <- Hm. by apply insert_id.
Qed.

(** X11. An exported field of type [int], [int64], [float64] or [string]
    whose effective name is a parameter of the query, no other parameter
    lower-casing to it, receives the first value of the parameter: the
    integer or the float it converts to, or the string itself, verbatim
    when it is not empty; and the round reports no error. *)
Theorem parseField_assigns_scalars (order : list string)
    (fieldT : StructField) (d : Data) (q : Values) (x : string)
    (rest : list string) :
  IsExported fieldT = true →
  (∀ k, is_Some (q !! k) → strings_ToLower k = effectiveName fieldT →
        k = effectiveName fieldT) →
  let result :=
    fieldResult (parseField order fieldT (fieldValue fieldT d)
                   (<[effectiveName fieldT := x :: rest]> q)) in
  (∀ n, FieldType fieldT = TInt → Atoi x = Some n →
     result = Returned (fieldValue fieldT (DInt n), None))
  ∧ (∀ n, FieldType fieldT = TInt64 → ParseInt10 x 0 = Some n →
       result = Returned (fieldValue fieldT (DInt n), None))
  ∧ (∀ y, FieldType fieldT = TFloat64 → x ≠ "" → ParseFloat x 64 = Some y →
       result = Returned (fieldValue fieldT (DFloat y), None))
  ∧ (FieldType fieldT = TString → x ≠ "" →
       result = Returned (fieldValue fieldT (DString x), None)).
Proof.
  intros Hexp Hother result. subst result.
  assert (Atoi "" = None) as Hempty by done.
  split_and!.
  - intros n Ht Hconv. rewrite parseField_scalar_direct by (by rewrite ?Ht).
    rewrite bool_decide_eq_false_2 by (intros ->; congruence).
    unfold bindValue, Value_Kind, parseInt. simpl. rewrite Ht. simpl.
    rewrite Hconv, Value_Set_ok; simpl; unfold fieldValue; rewrite ?Ht;
      done.
  - intros n Ht Hconv. rewrite parseField_scalar_direct by (by rewrite ?Ht).
    rewrite bool_decide_eq_false_2 by (intros ->; unfold Atoi in *; congruence).
    unfold bindValue, Value_Kind, parseInt64. simpl. rewrite Ht. simpl.
    rewrite Hconv, Value_Set_ok; simpl; unfold fieldValue; rewrite ?Ht;
      done.
  - intros y Ht Hx Hconv. rewrite parseField_scalar_direct by (by rewrite ?Ht).
    rewrite bool_decide_eq_false_2 by done.
    unfold bindValue, Value_Kind, parseFloat. simpl. rewrite Ht. simpl.
    rewrite Hconv, Value_Set_ok; simpl; unfold fieldValue; rewrite ?Ht;
      done.
  - intros Ht Hx. rewrite parseField_scalar_direct by (by rewrite ?Ht).
    rewrite bool_decide_eq_false_2 by done.
    unfold bindValue, Value_Kind, parseString. simpl. rewrite Ht. simpl.
    rewrite Value_Set_ok; simpl; unfold fieldValue; rewrite ?Ht;
      done.
Qed.

(** ** A list parameter given several times *)

Lemma rangeValues_app (l1 l2 : list string)
    (body : string → list string → Value * Values → Outcome (Value * Values))
    (st : Value * Values) :
  rangeValues (l1 ++ l2) body st =
    st' ←! rangeValues l1 body st; rangeValues l2 body st'.
Proof.
  revert st. induction l1 as [|key l1 IH]; intros st; simpl; [done|].
  destruct (st.2 !! key); [|by apply IH].
  destruct (body key _ st); simpl; [by apply IH | done].
Qed.

(** With an order that reaches every key once, and the field's effective
    name the only key that matches, the loop is one run of its body. *)
Lemma rangeValues_own_name (fieldName sep : string) (order : list string)
    (vals : list string) (vv : Value) (q : Values) :
  NoDup order → fieldName ∈ order → q !! fieldName = Some vals →
  (∀ k, is_Some (q !! k) → strings_ToLower k = fieldName → k = fieldName) →
  rangeValues order (rangeBody fieldName sep) (vv, q)
    = rangeBody fieldName sep fieldName vals (vv, q).
Proof.
  intros Hnodup Hin Hvals Hother.
  apply list_elem_of_split in Hin as (l1 & l2 & ->).
  apply NoDup_app in Hnodup as (_ & Hl1 & Hl2).
  apply NoDup_cons in Hl2 as [Hl2 _].
  rewrite rangeValues_app, rangeValues_no_match.
  - simpl. rewrite Hvals.
    destruct (rangeBody _ _ _ _ _) as [[v1 q1]|] eqn:Hbody; simpl; [|done].
    apply rangeValues_no_match. intros k Hk Hq1 Hmatch.
    assert (k ≠ fieldName) as Hne by (intros ->; done).
    rewrite (rangeBody_writes _ _ _ _ _ _ _ _ Hbody k Hne) in Hq1.
    by apply Hne, Hother.
  - intros k Hk Hq Hmatch. apply (Hl1 k Hk).
    rewrite (Hother k Hq Hmatch). by left.
Qed.

Lemma sliceTokens_Join (c : ascii) (r : list string) :
  r ≠ [] →
  sliceTokens (String c "") (strings_Join r (String c ""))
    = mjoin (sliceTokens (String c "") <$> r).
Proof.
  intros Hr. unfold sliceTokens.
  rewrite strings_Split_byte, splitByte_Join_concat by done.
  clear Hr. induction r as [|t r IH]; [done|].
  rewrite !fmap_cons. simpl. rewrite fmap_app, filter_app, IH.
  by rewrite strings_Split_byte.
Qed.

(** X6. A list field (exported, of underlying type [[]string], with a
    separator of one byte) whose effective name is in lower case (it is its
    own lower-casing) and whose parameter is given several times under
    exactly that name, no other parameter name of the query lower-casing to
    it, receives the tokens of all its values, in the order of the values:
    each value is trimmed of commas and separators at both ends, the values
    are joined by the separator, and, when the joined text is not empty, the
    list stored is the concatenation of the lower-cased, non-empty tokens of
    each trimmed value, and there is no error. The iteration order has no
    repetition and reaches the name. *)
Theorem parseField_concatenates_list_values (order : list string)
    (fieldT : StructField) (d : Data) (q : Values) (vals : list string)
    (c : ascii) :
  IsExported fieldT = true →
  underlying (FieldType fieldT) = TSliceOf TString →
  getSeparator fieldT = String c "" →
  strings_ToLower (effectiveName fieldT) = effectiveName fieldT →
  q !! effectiveName fieldT = Some vals →
  (∀ k, is_Some (q !! k) → strings_ToLower k = effectiveName fieldT →
        k = effectiveName fieldT) →
  NoDup order → effectiveName fieldT ∈ order →
  let r := (λ n, strings_Trim n ("," +:+ getSeparator fieldT)) <$> vals in
  strings_Join r (getSeparator fieldT) ≠ "" →
  fieldResult (parseField order fieldT (fieldValue fieldT d) q)
    = Returned
        (fieldValue fieldT
           (DSlice (mjoin (sliceTokens (getSeparator fieldT) <$> r))),
         None).
Proof.
  intros Hexp Hty Hsep Hlower Hvals Hother Hnodup Hin r Hjoin.
  assert (typeKind (FieldType fieldT) = KSlice) as Hkind
    by (unfold typeKind; by rewrite Hty).
  assert (typeElem (FieldType fieldT) = Some TString) as Helem
    by (unfold typeElem; by rewrite Hty).
  assert (r ≠ []) as Hr by (intros Hnil; by rewrite Hnil in Hjoin).
  unfold parseField.
  rewrite (rangeValues_own_name _ _ _ vals) by done.
  assert (∃ d1,
    rangeBody (effectiveName fieldT) (getSeparator fieldT)
      (effectiveName fieldT) vals (fieldValue fieldT d, q)
    = Returned (fieldValue fieldT d1,
                <[effectiveName fieldT :=
                    [strings_Join r (getSeparator fieldT)]]> q))
    as [d1 ->].
  { unfold rangeBody, Value_Kind, Value_IsNil, MakeSlice, ValueOf.
    rewrite Hlower, bool_decide_eq_false_2 by (by intros []).
    change (vType (fieldValue fieldT d)) with (FieldType fieldT).
    rewrite Hkind, Helem.
    destruct d; simpl;
      rewrite ?Value_Set_ok by (done || apply assignableTo_refl); simpl;
      by eexists. }
  simpl. unfold Values_Get. rewrite lookup_insert_eq.
  rewrite bool_decide_eq_false_2 by done.
  unfold bindValue, Value_Kind.
  change (vType (fieldValue fieldT d1)) with (FieldType fieldT).
  rewrite Hkind. unfold parseSlice.
  rewrite Value_Set_ok by (done || by apply assignable_unnamed).
  simpl. unfold Value_Kind. simpl. rewrite Hkind. simpl.
  rewrite parseSlice_range_spec. simpl. unfold fieldValue. do 3 f_equal.
  rewrite Hsep in *. by rewrite <- sliceTokens_Join.
Qed.

(** ** Effective names with an upper-case letter *)

Lemma lowerByte_facts (b : ascii) :
  isUpperByte (lowerByte b) = false
  ∧ lowerByte (lowerByte b) = lowerByte b
  ∧ isASCIIByte (lowerByte b) = isASCIIByte b
  ∧ (isLowerByte (lowerByte b) = false → lowerByte b = b).
Proof.
  destruct b as [b0 b1 b2 b3 b4 b5 b6 b7].
  destruct b0, b1, b2, b3, b4, b5, b6, b7; vm_compute; by split_and!.
Qed.

Lemma hasUpper_mapBytes_lower (s : string) :
  hasUpper (mapBytes lowerByte s) = false.
Proof.
  induction s as [|b s IH]; simpl; [done|].
  destruct (lowerByte_facts b) as [-> _]. done.
Qed.

Lemma strings_ToLower_ASCII (s : string) :
  isASCII s = true → strings_ToLower s = mapBytes lowerByte s.
Proof. unfold strings_ToLower. by intros ->. Qed.

(** X12. An effective name that holds an upper-case ASCII letter (a name
    override written with one) is matched by no ASCII parameter name: the
    [range] loop then does nothing, and the round reads the first value of
    the parameter spelled exactly as the effective name, neither trimmed
    nor joined, without allocating the field and without writing the query
    map. *)
Theorem parseField_upper_case_name (order : list string)
    (fieldT : StructField) (fieldV : Value) (q : Values) :
  hasUpper (effectiveName fieldT) = true →
  (∀ k, is_Some (q !! k) → isASCII k = true) →
  parseField order fieldT fieldV q =
    if bool_decide (Values_Get q (effectiveName fieldT) = "")
    then Returned (fieldV, q, None)
    else '(v, err) ←! bindValue fieldT fieldV
                         (Values_Get q (effectiveName fieldT));
         Returned (v, q, err).
Proof.
  intros Hupper Hascii. unfold parseField.
  rewrite rangeValues_no_match; [done|].
  intros k _ Hk Hmatch.
  rewrite strings_ToLower_ASCII in Hmatch by by apply Hascii.
  by rewrite <- Hmatch, hasUpper_mapBytes_lower in Hupper.
Qed.

(** ** The name override is not lower-cased *)

Lemma hasUpper_nonempty (s : string) : hasUpper s = true → s ≠ "".
Proof. by destruct s. Qed.

Lemma effectiveName_override (fieldT : StructField) :
  hasUpper (getTag "name" fieldT) = true →
  effectiveName fieldT = getTag "name" fieldT.
Proof.
  intros Hupper. unfold effectiveName.
  by rewrite bool_decide_eq_true_2 by by apply hasUpper_nonempty.
Qed.

(** The loop of a field whose effective name holds an upper-case ASCII
    letter passes over every ASCII parameter name. *)
Lemma rangeValues_upper_case (fieldName sep : string) (order : list string)
    (vv : Value) (q : Values) :
  hasUpper fieldName = true →
  (∀ k, is_Some (q !! k) → isASCII k = true) →
  rangeValues order (rangeBody fieldName sep) (vv, q) = Returned (vv, q).
Proof.
  intros Hupper Hascii. apply rangeValues_no_match.
  intros k _ Hk Hmatch.
  rewrite strings_ToLower_ASCII in Hmatch by by apply Hascii.
  by rewrite <- Hmatch, hasUpper_mapBytes_lower in Hupper.
Qed.

(** C7, where the code departs from it. [Parse] lower-cases the identifier
    of a field and every parameter name, but takes the name override as
    written. A field whose override holds an upper-case ASCII letter is
    then left as it was, without error, by every query that does not spell
    the override exactly, its lower-cased form included. With [N int] and
    the override [name:Foo], [foo=5] leaves [N] at 0 and [Foo=5] sets it to
    5, where the field [Foo int] without override is set to 5 by both, and
    the override [name:foo] reads both. With [Embed Slice] and the override
    [name:Foo], [Foo=a,b,&Foo=c] stores the tokens of the first value only,
    where the field [Foo Slice] without override stores those of both. *)
Theorem Parse_name_override_not_lower_cased :
  (∀ (order : list string) (fieldT : StructField) (fieldV : Value)
      (q : Values),
     hasUpper (getTag "name" fieldT) = true →
     (∀ k, is_Some (q !! k) → isASCII k = true) →
     q !! getTag "name" fieldT = None →
     parseField order fieldT fieldV q = Returned (fieldV, q, None))
  ∧ Parse (λ _, ["Foo"; "foo"])
      (Dyn testStructPtr (Some [(testOverride, DInt 0)])) {["foo" := ["5"]]}
    = Returned (Dyn testStructPtr (Some [(testOverride, DInt 0)]), None)
  ∧ Parse (λ _, ["Foo"; "foo"])
      (Dyn testStructPtr (Some [(testOverride, DInt 0)])) {["Foo" := ["5"]]}
    = Returned (Dyn testStructPtr (Some [(testOverride, DInt 5)]), None)
  ∧ Parse (λ _, ["Foo"; "foo"])
      (Dyn testStructPtr (Some [(testFoo, DInt 0)])) {["foo" := ["5"]]}
    = Returned (Dyn testStructPtr (Some [(testFoo, DInt 5)]), None)
  ∧ Parse (λ _, ["Foo"; "foo"])
      (Dyn testStructPtr (Some [(testFoo, DInt 0)])) {["Foo" := ["5"]]}
    = Returned (Dyn testStructPtr (Some [(testFoo, DInt 5)]), None)
  ∧ Parse (λ _, ["Foo"; "foo"])
      (Dyn testStructPtr (Some [(testOverrideLower, DInt 0)]))
      {["foo" := ["5"]]}
    = Returned (Dyn testStructPtr (Some [(testOverrideLower, DInt 5)]), None)
  ∧ Parse (λ _, ["Foo"; "foo"])
      (Dyn testStructPtr (Some [(testOverrideLower, DInt 0)]))
      {["Foo" := ["5"]]}
    = Returned (Dyn testStructPtr (Some [(testOverrideLower, DInt 5)]), None)
  ∧ Parse (λ _, ["Foo"; "foo"])
      (Dyn testStructPtr (Some [(testEmbedOverride, DNil)]))
      {["Foo" := ["a,b,"; "c"]]}
    = Returned
        (Dyn testStructPtr (Some [(testEmbedOverride, DSlice ["a"; "b"])]),
         None)
  ∧ Parse (λ _, ["Foo"; "foo"])
      (Dyn testStructPtr (Some [(testFooSlice, DNil)]))
      {["Foo" := ["a,b,"; "c"]]}
    = Returned
        (Dyn testStructPtr (Some [(testFooSlice, DSlice ["a"; "b"; "c"])]),
         None).
Proof.
  split; [|by vm_compute].
  intros order fieldT fieldV q Hupper Hascii Hnone. unfold parseField.
  rewrite rangeValues_upper_case
    by (done || by rewrite effectiveName_override).
  simpl. unfold Values_Get.
  by rewrite effectiveName_override, Hnone by done.
Qed.

(** C8, where the code departs from it. A list or map field whose name
    override holds an upper-case ASCII letter is matched by no parameter
    name, not even by the override itself, so the loop that allocates the
    container passes over every entry of the query: when the value read
    under the override is empty, the round leaves the nil container nil and
    reports no error. With [Embed Slice] or [Filter Map] and the override
    [name:Foo], the query [Foo=] (and likewise [foo=]) returns no error and
    leaves the field nil, where the field [Foo Slice] without override is
    left as the empty slice. *)
Theorem Parse_override_leaves_container_nil :
  (∀ (order : list string) (fieldT : StructField) (q : Values),
     isContainer (typeKind (FieldType fieldT)) = true →
     hasUpper (getTag "name" fieldT) = true →
     (∀ k, is_Some (q !! k) → isASCII k = true) →
     Values_Get q (getTag "name" fieldT) = "" →
     parseField order fieldT (fieldValue fieldT DNil) q
       = Returned (fieldValue fieldT DNil, q, None)
     ∧ Value_IsNil (fieldValue fieldT DNil) = true)
  ∧ Parse (λ _, ["Foo"; "foo"])
      (Dyn testStructPtr (Some [(testEmbedOverride, DNil)])) {["Foo" := [""]]}
    = Returned (Dyn testStructPtr (Some [(testEmbedOverride, DNil)]), None)
  ∧ Parse (λ _, ["Foo"; "foo"])
      (Dyn testStructPtr (Some [(testEmbedOverride, DNil)])) {["foo" := [""]]}
    = Returned (Dyn testStructPtr (Some [(testEmbedOverride, DNil)]), None)
  ∧ Parse (λ _, ["Foo"; "foo"])
      (Dyn testStructPtr (Some [(testFilterOverride, DNil)])) {["Foo" := [""]]}
    = Returned (Dyn testStructPtr (Some [(testFilterOverride, DNil)]), None)
  ∧ Parse (λ _, ["Foo"; "foo"])
      (Dyn testStructPtr (Some [(testFooSlice, DNil)])) {["Foo" := [""]]}
    = Returned (Dyn testStructPtr (Some [(testFooSlice, DSlice [])]), None).
Proof.
  split; [|by vm_compute].
  intros order fieldT q Hcont Hupper Hascii Hempty. split; [|done].
  unfold parseField.
  rewrite rangeValues_upper_case
    by (done || by rewrite effectiveName_override).
  simpl. rewrite effectiveName_override by done.
  by rewrite bool_decide_eq_true_2.
Qed.

(** ** Decoding a list again *)

Lemma isASCII_pieces (c : ascii) (s t : string) :
  isASCII s = true → t ∈ splitByte c s → isASCII t = true.
Proof.
  revert t. induction s as [|d s IH]; intros t; simpl.
  - intros _ Ht. by apply list_elem_of_singleton in Ht as ->.
  - intros [Hd Hs]%andb_true_iff. case_bool_decide.
    + intros [->|Ht]%elem_of_cons; [done | by apply IH].
    + pose proof (splitByte_nonempty c s).
      destruct (splitByte c s) as [|t0 ts] eqn:Hsplit; [done|].
      intros [->|Ht]%elem_of_cons; simpl.
      * rewrite Hd. simpl. apply IH; [done | by left].
      * apply IH; [done | by right].
Qed.

Lemma mapBytes_lower_facts (c : ascii) (t : string) :
  mapBytes lowerByte (mapBytes lowerByte t) = mapBytes lowerByte t
  ∧ isASCII (mapBytes lowerByte t) = isASCII t
  ∧ (isLowerByte c = false → containsByte t c = false →
     containsByte (mapBytes lowerByte t) c = false).
Proof.
  induction t as [|b t (IH1 & IH2 & IH3)]; simpl; [done|].
  destruct (lowerByte_facts b) as (_ & Hidem & Hascii & Hlow).
  rewrite Hidem, IH1, Hascii, IH2. split_and!; [done | done |].
  intros Hc [Hb Ht]%orb_false_iff. rewrite IH3 by done.
  rewrite orb_false_r. apply bool_decide_eq_false. intros ->.
  apply bool_decide_eq_false in Hb. by apply Hb, Hlow.
Qed.

(** The tokens stored for an ASCII value are not empty, hold no separator
    and are in lower case. *)
Lemma sliceTokens_ASCII (c : ascii) (v tk : string) :
  isLowerByte c = false → isASCII v = true →
  tk ∈ sliceTokens (String c "") v →
  tk ≠ "" ∧ containsByte tk c = false ∧ strings_ToLower tk = tk.
Proof.
  intros Hc Hv. unfold sliceTokens. rewrite strings_Split_byte.
  intros [Hne (p & -> & Hp)%list_elem_of_fmap]%list_elem_of_filter.
  assert (isASCII p = true) as Hpa by (by eapply isASCII_pieces).
  assert (containsByte p c = false) as Hpc.
  { apply containsByte_false. intros Hb.
    by destruct (splitByte_pieces _ _ _ _ Hp Hb). }
  destruct (mapBytes_lower_facts c p) as (Hidem & Hascii & Hcont).
  rewrite strings_ToLower_ASCII in * by done.
  split_and!; [done | by apply Hcont |].
  rewrite strings_ToLower_ASCII by (by rewrite Hascii). done.
Qed.

Lemma sliceTokens_fixed (c : ascii) (ts : list string) :
  Forall (λ tk, tk ≠ "" ∧ containsByte tk c = false
                ∧ strings_ToLower tk = tk) ts →
  sliceTokens (String c "") (strings_Join ts (String c "")) = ts.
Proof.
  intros Hall. unfold sliceTokens. rewrite strings_Split_byte.
  destruct ts as [|t ts]; [done|].
  rewrite splitByte_Join.
  - induction Hall as [|tk l (Hne & _ & Hlow) _ IH]; [done|].
    rewrite fmap_cons, Hlow, filter_cons_True by done. by rewrite IH.
  - done.
  - eapply Forall_impl; [exact Hall|]. by intros tk (_ & ? & _).
Qed.

(** X13. Decoding is stable: for a list field (exported, of underlying type
    [[]string]) whose separator is one byte other than a lower-case letter,
    the list that [parseSlice] stores for an ASCII value, joined again by
    the separator, decodes to the same list. *)
Theorem parseSlice_stable (sField : StructField) (d : Data) (v : string)
    (c : ascii) :
  IsExported sField = true →
  underlying (FieldType sField) = TSliceOf TString →
  getSeparator sField = String c "" →
  isLowerByte c = false →
  isASCII v = true →
  ∃ ts,
    parseSlice sField (fieldValue sField d) v
      = Returned (fieldValue sField (DSlice ts))
    ∧ parseSlice sField (fieldValue sField d)
        (strings_Join ts (getSeparator sField))
      = Returned (fieldValue sField (DSlice ts)).
Proof.
  intros Hexp Hty Hsep Hc Hv.
  assert (∀ x, parseSlice sField (fieldValue sField d) x
               = Returned (fieldValue sField
                             (DSlice (sliceTokens (String c "") x)))) as Hp.
  { intros x. unfold parseSlice, sliceTokens.
    rewrite Value_Set_ok by (done || by apply assignable_unnamed).
    by rewrite parseSlice_range_spec, Hsep. }
  exists (sliceTokens (String c "") v). rewrite Hsep, !Hp. split; [done|].
  rewrite sliceTokens_fixed; [done|].
  apply Forall_forall. intros tk Htk. by eapply sliceTokens_ASCII.
Qed.

(** ** Bulk conversion of a list in two parts *)

(** X14. [ToIntSlice] converts a list member by member: every member is
    either converted or failing, so the result is as long as the list less
    its failing members, and the error is nil exactly when the result is as
    long as the list; the result for two lists appended is the two results
    appended, with the error of the second list when it has one and else
    that of the first. *)
Theorem ToIntSlice_app (a b : list string) :
  ToIntSlice (a ++ b)
    = ((ToIntSlice a).1 ++ (ToIntSlice b).1,
       match (ToIntSlice b).2 with
       | Some e => Some e
       | None => (ToIntSlice a).2
       end)
  ∧ (length (ToIntSlice a).1 + length (failingMembers Atoi a))%nat = length a
  ∧ ((ToIntSlice a).2 = None ↔ length (ToIntSlice a).1 = length a).
Proof.
  unfold ToIntSlice. rewrite !ToIntSlice_range_spec. simpl.
  assert (length (omap Atoi a) + length (failingMembers Atoi a) = length a)%nat
    as Hlen.
  { unfold failingMembers. induction a as [|v a IH]; [done|]. csimpl.
    destruct (Atoi v) eqn:Hv; simpl.
    - rewrite filter_cons_False by (by rewrite Hv). simpl. lia.
    - rewrite filter_cons_True by done. simpl. lia. }
  split_and!; [|done|].
  - rewrite omap_app. f_equal. unfold failingMembers.
    rewrite filter_app, last_app. by destruct (last (filter _ b)).
  - destruct (last (failingMembers Atoi a)) as [v|] eqn:Hlast.
    + split; [done|]. intros Heq.
      apply last_Some in Hlast as [l' Hl']. rewrite Hl', length_app in Hlen.
      simpl in Hlen. lia.
    + apply last_None in Hlast. rewrite Hlast in Hlen. simpl in Hlen.
      split; [lia | done].
Qed.

End Qparams.

(** ** Checks on ASCII inputs *)

Lemma parseMap_segment_entries_witness :
  IsExported testFilter = true
  ∧ underlying (FieldType testFilter) = TMapOf TString TString
  ∧ ∃ m,
      parseMap asciiToLower asciiExplode testFilter
        (fieldValue testFilter DNil) "aGe!=9,Gender>0"
        = Returned (fieldValue testFilter (DMap m))
      ∧ ∀ before segment after o,
          walkSegments asciiExplode "aGe!=9,Gender>0"
            (getSeparator asciiExplode testFilter)
            = before ++ segment :: after →
          o ∈ getOperators asciiExplode testFilter → occursIn o segment →
          ∃ left op operand,
            segment = left +:+ op +:+ operand
            ∧ op ∈ getOperators asciiExplode testFilter
            ∧ let key :=
                compositeKey (trimSpace (strings_ToLower asciiToLower left)) op in
              is_Some (m !! key)
              ∧ ((∀ seg, seg ∈ after →
                    segmentKey asciiToLower
                      (getOperators asciiExplode testFilter) seg ≠ Some key) →
                 m !! key = Some operand).
Proof.
  split; [reflexivity|]. split; [reflexivity|].
  apply (proj1 (parseMap_segment_entries asciiToLower asciiExplode));
    reflexivity.
Defined.

Lemma parseSlice_tokens_witness :
  IsExported testEmbed = true
  ∧ underlying (FieldType testEmbed) = TSliceOf TString
  ∧ parseSlice asciiToLower asciiExplode testEmbed
      (fieldValue testEmbed DNil) "User,,Order"
    = Returned (fieldValue testEmbed (DSlice ["user"; "order"])).
Proof.
  split; [reflexivity|]. split; [reflexivity|].
  apply (proj1 (parseSlice_tokens asciiToLower asciiExplode) testEmbed DNil
           "User,,Order"); reflexivity.
Defined.


Lemma Parse_allocates_matched_containers_witness :
  ∃ d', [(testEmbed, DSlice [])] !! 0%nat = Some (testEmbed, d') ∧ d' ≠ DNil.
Proof.
  apply (proj1 (Parse_allocates_matched_containers asciiToLower asciiTrim
                  asciiExplode noFloat)
           (λ _, ["Embed"; "embed"]) testStructPtr testStructPtr
           [(testEmbed, DNil)] [(testEmbed, DSlice [])] {["Embed" := [""]]}
           None 0%nat testEmbed DNil "Embed").
  - vm_compute. reflexivity.
  - discriminate.
  - reflexivity.
  - reflexivity.
  - vm_compute. eexists. reflexivity.
  - reflexivity.
  - left.
Defined.

Lemma scalar_uses_first_value_witness :
  isContainer (typeKind (FieldType testAge)) = false
  ∧ fieldResult
      (parseField asciiToLower asciiTrim asciiExplode noFloat ["Age"; "age"]
         testAge (fieldValue testAge (DInt 0)) (<["age" := ["7"; "8"]]> ∅))
    = Returned (fieldValue testAge (DInt 7), None).
Proof.
  split; [reflexivity|].
  rewrite (proj2 (scalar_uses_first_value asciiToLower asciiTrim asciiExplode
                    noFloat ["Age"; "age"] testAge (DInt 0) ∅ "age" "7" ["8"]
                    eq_refl) eq_refl).
  - reflexivity.
  - intros k [v Hv]. rewrite lookup_empty in Hv. discriminate.
Defined.

Lemma parameter_names_match_lower_cased_witness :
  fieldResult
    (parseField asciiToLower asciiTrim asciiExplode noFloat ["Embed"; "embed"]
       testEmbed (fieldValue testEmbed DNil) (<["Embed" := ["User,Order,"]]> ∅))
  = fieldResult
      (parseField asciiToLower asciiTrim asciiExplode noFloat ["embed"]
         testEmbed (fieldValue testEmbed DNil) (<["embed" := ["User,Order,"]]> ∅)).
Proof.
  apply parameter_names_match_lower_cased.
  - reflexivity.
  - reflexivity.
  - reflexivity.
  - reflexivity.
  - intros k [v Hv]. rewrite lookup_empty in Hv. discriminate.
  - left.
  - left.
Defined.

(** Beyond one raw value and string elements, the case of a parameter name
    can change what a field with a lower-case effective name decodes to.
    With a separator other than the comma and a parameter given twice, the
    map decoded from [Filter=&Filter=a>1] depends on whether the loop
    reaches the entry ["filter"] that it has just created, and may differ
    from the map decoded from [filter=&filter=a>1]. With a list of
    integers, [ids=1] panics in [parseSlice] and [Ids=1] does not reach
    it. *)
Lemma matching_beyond_one_string_value :
  (∃ m, Parse asciiToLower asciiTrim asciiExplode noFloat
          (λ _, ["Filter"; "filter"])
          (Dyn testStructPtr (Some [(testFilterSep, DNil)]))
          {["Filter" := [""; "a>1"]]}
        = Returned (Dyn testStructPtr (Some [(testFilterSep, DMap m)]), None)
        ∧ m = {["a >" := "1"]})
  ∧ (∃ m, Parse asciiToLower asciiTrim asciiExplode noFloat
            (λ _, ["Filter"; "filter"])
            (Dyn testStructPtr (Some [(testFilterSep, DNil)]))
            {["filter" := [""; "a>1"]]}
          = Returned (Dyn testStructPtr (Some [(testFilterSep, DMap m)]), None)
          ∧ m = {[",a >" := "1"]})
  ∧ Parse asciiToLower asciiTrim asciiExplode noFloat (λ _, ["ids"; "Ids"])
      (Dyn testStructPtr (Some [(testIds, DNil)])) {["ids" := ["1"]]}
    = Panicked
        "reflect.Set: value of type []string is not assignable to type []int"
  ∧ Parse asciiToLower asciiTrim asciiExplode noFloat (λ _, ["ids"; "Ids"])
      (Dyn testStructPtr (Some [(testIds, DNil)])) {["Ids" := ["1"]]}
    = Returned (Dyn testStructPtr (Some [(testIds, DSlice [])]), None).
Proof.
  split_and!; [eexists; split; [by vm_compute | by vm_compute]
              |eexists; split; [by vm_compute | by vm_compute]
              |by vm_compute | by vm_compute].
Qed.

(** ** Checks of the further properties on ASCII inputs *)

Lemma getTag_first_option_witness :
  getTag asciiExplode "ops" testFilterSep = ">,==,<=,<,!=,-like-".
Proof.
  exact (getTag_first_option asciiExplode "ops" testFilterSep
           [("sep", "|"); ("ops", ">,==,<=,<,!=,-like-")] eq_refl
           ltac:(repeat constructor)).
Defined.

Lemma getOperators_in_order_witness :
  getOperators asciiExplode testFilterSep
    = [">"; "=="; "<="; "<"; "!="; "-like-"]
  ∧ getSeparator asciiExplode testFilterSep = "|".
Proof.
  exact (getOperators_in_order asciiExplode testFilterSep
           [("sep", "|"); ("ops", ">,==,<=,<,!=,-like-")]
           [">"; "=="; "<="; "<"; "!="; "-like-"] eq_refl
           ltac:(repeat constructor) eq_refl ltac:(discriminate)
           ltac:(repeat constructor)).
Defined.

Lemma TypeConvErrors_Error_lines_witness :
  strings_Split asciiExplode
    (TypeConvErrors_Error
       ["Field Age does not contain a valid integer (abc)";
        "Field Rate does not contain a valid float (x)"]) newline
  = ["Field Age does not contain a valid integer (abc)";
     "Field Rate does not contain a valid float (x)"; ""].
Proof.
  apply (proj2 (TypeConvErrors_Error_lines asciiExplode
                  ["Field Age does not contain a valid integer (abc)";
                   "Field Rate does not contain a valid float (x)"] [])).
  repeat constructor.
Defined.

Lemma Parse_leaves_unmatched_fields_witness :
  Parse asciiToLower asciiTrim asciiExplode noFloat (λ _, ["other"])
    (Dyn testStructPtr (Some [(testInt32, DInt 3); (testUnexported, DNil)]))
    {["other" := ["1"]]}
  = Returned
      (Dyn testStructPtr (Some [(testInt32, DInt 3); (testUnexported, DNil)]),
       None).
Proof.
  apply Parse_leaves_unmatched_fields; [reflexivity | reflexivity |].
  repeat constructor; simpl.
  all: intros k [v Hv]; apply lookup_singleton_Some in Hv as [<- _];
    vm_compute; discriminate.
Defined.

Lemma parseField_concatenates_list_values_witness :
  fieldResult
    (parseField asciiToLower asciiTrim asciiExplode noFloat ["embed"]
       testEmbed (fieldValue testEmbed DNil)
       {["embed" := ["User,Order"; ",Discount,"]]})
  = Returned (fieldValue testEmbed (DSlice ["user"; "order"; "discount"]), None).
Proof.
  refine (parseField_concatenates_list_values asciiToLower asciiTrim
            asciiExplode noFloat ["embed"] testEmbed DNil
            {["embed" := ["User,Order"; ",Discount,"]]}
            ["User,Order"; ",Discount,"] ","%char
            eq_refl eq_refl eq_refl eq_refl eq_refl _ _ _ _).
  - intros k [v Hv] _. by apply lookup_singleton_Some in Hv as [<- _].
  - apply NoDup_singleton.
  - left.
  - vm_compute. discriminate.
Defined.

Lemma Parse_error_kinds_witness :
  Some ErrWrongDestType = Some ErrWrongDestType ↔
    ∃ t target, Dyn (TDefined "qparams" "testStruct" TStruct) None
                  = Dyn t target
      ∧ (typeKind t ≠ KPtr ∨ typeKind <$> typeElem t ≠ Some KStruct).
Proof.
  exact (proj1 (Parse_error_kinds asciiToLower asciiTrim asciiExplode noFloat
                  (λ _, []) (Dyn (TDefined "qparams" "testStruct" TStruct) None)
                  (Dyn (TDefined "qparams" "testStruct" TStruct) None) ∅
                  (Some ErrWrongDestType) eq_refl)).
Defined.

Lemma parseField_writes_own_entry_witness :
  (<["embed" := ["a"]]> {["Embed" := ["a"]; "x" := ["1"]]} : Values) !! "x"
  = ({["Embed" := ["a"]; "x" := ["1"]]} : Values) !! "x".
Proof.
  refine (proj1 (parseField_writes_own_entry asciiToLower asciiTrim
                   asciiExplode noFloat ["x"; "Embed"; "embed"] testEmbed
                   (fieldValue testEmbed DNil)
                   (fieldValue testEmbed (DSlice ["a"]))
                   {["Embed" := ["a"]; "x" := ["1"]]}
                   (<["embed" := ["a"]]> {["Embed" := ["a"]; "x" := ["1"]]})
                   None _) "x" _).
  - vm_compute. reflexivity.
  - discriminate.
Defined.

Lemma Parse_decodes_fields_independently_witness :
  ∃ (qs : list Values) (es : list (option string)),
    length es = 2%nat
    ∧ qs !! 0%nat = Some (<["age" := ["abc"]]> {["name" := ["Bob"]]})
    ∧ Some (TypeConvErrors ["Field Age does not contain a valid integer (abc)"])
      = aggregate (omap id es)
    ∧ (∀ i f di,
         [(testName, DString ""); (testAge, DInt 0)] !! i = Some (f, di) →
         ∃ qi qi' di' ei,
           qs !! i = Some qi ∧ qs !! S i = Some qi' ∧ es !! i = Some ei
           ∧ [(testName, DString "Bob"); (testAge, DInt 0)] !! i
             = Some (f, di')
           ∧ parseField asciiToLower asciiTrim asciiExplode noFloat
               ["age"; "name"] f (fieldValue f di) qi
             = Returned (fieldValue f di', qi', ei))
    ∧ ∃ d' e,
        [(testName, DString "Bob"); (testAge, DInt 0)] !! 1%nat
          = Some (testAge, d')
        ∧ es !! 1%nat = Some e
        ∧ fieldResult
            (parseField asciiToLower asciiTrim asciiExplode noFloat
               ["age"; "name"] testAge (fieldValue testAge (DInt 0))
               (<["age" := ["abc"]]> {["name" := ["Bob"]]}))
          = Returned (fieldValue testAge d', e).
Proof.
  refine (Parse_decodes_fields_independently asciiToLower asciiTrim
            asciiExplode noFloat (λ _, ["age"; "name"]) testStructPtr
            testStructPtr [(testName, DString ""); (testAge, DInt 0)]
            [(testName, DString "Bob"); (testAge, DInt 0)]
            (<["age" := ["abc"]]> {["name" := ["Bob"]]})
            (Some (TypeConvErrors
                     ["Field Age does not contain a valid integer (abc)"]))
            1%nat testAge (DInt 0) _ _ eq_refl _).
  - vm_compute. reflexivity.
  - discriminate.
  - intros [|i] f' d' Hi Hf; [|lia]. injection Hf as <- <-.
    split; vm_compute; discriminate.
Defined.

Lemma parseField_kinds_without_case_witness :
  ∃ q',
    parseField asciiToLower asciiTrim asciiExplode noFloat ["flag"] testFlag
      (fieldValue testFlag (DBool false)) {["flag" := ["true"]]}
    = Returned (fieldValue testFlag (DBool false), q', None).
Proof.
  apply (proj1 (parseField_kinds_without_case asciiToLower asciiTrim
                  asciiExplode noFloat ["flag"] testFlag
                  (fieldValue testFlag (DBool false)) {["flag" := ["true"]]})).
  reflexivity.
Defined.

Lemma parseField_assigns_scalars_witness :
  fieldResult
    (parseField asciiToLower asciiTrim asciiExplode noFloat ["age"] testAge
       (fieldValue testAge (DInt 0)) (<["age" := ["-42"]]> ∅))
  = Returned (fieldValue testAge (DInt (-42)), None).
Proof.
  refine (proj1 (parseField_assigns_scalars asciiToLower asciiTrim asciiExplode
                   noFloat ["age"] testAge (DInt 0) ∅ "-42" [] eq_refl _)
            (-42)%Z eq_refl eq_refl).
  intros k [v Hv]. rewrite lookup_empty in Hv. discriminate.
Defined.

Lemma parseField_upper_case_name_witness :
  parseField asciiToLower asciiTrim asciiExplode noFloat ["foo"] testOverride
    (fieldValue testOverride (DInt 0)) {["foo" := ["5"]]}
  = Returned (fieldValue testOverride (DInt 0), {["foo" := ["5"]]}, None).
Proof.
  refine (parseField_upper_case_name asciiToLower asciiTrim asciiExplode
            noFloat ["foo"] testOverride (fieldValue testOverride (DInt 0))
            {["foo" := ["5"]]} eq_refl _).
  intros k [v Hv]. by apply lookup_singleton_Some in Hv as [<- _].
Defined.

Lemma parseSlice_stable_witness :
  ∃ ts,
    parseSlice asciiToLower asciiExplode testEmbed (fieldValue testEmbed DNil)
      ",User,,Order"
    = Returned (fieldValue testEmbed (DSlice ts))
    ∧ parseSlice asciiToLower asciiExplode testEmbed
        (fieldValue testEmbed DNil)
        (strings_Join ts (getSeparator asciiExplode testEmbed))
      = Returned (fieldValue testEmbed (DSlice ts)).
Proof.
  exact (parseSlice_stable asciiToLower asciiExplode testEmbed DNil
           ",User,,Order" ","%char eq_refl eq_refl eq_refl eq_refl eq_refl).
Defined.

Lemma Parse_name_override_not_lower_cased_witness :
  parseField asciiToLower asciiTrim asciiExplode noFloat ["Foo"; "foo"]
    testOverride (fieldValue testOverride (DInt 0)) {["foo" := ["5"]]}
  = Returned (fieldValue testOverride (DInt 0), {["foo" := ["5"]]}, None).
Proof.
  refine (proj1 (Parse_name_override_not_lower_cased asciiToLower asciiTrim
                   asciiExplode noFloat)
            ["Foo"; "foo"] testOverride (fieldValue testOverride (DInt 0))
            {["foo" := ["5"]]} eq_refl _ eq_refl).
  intros k [v Hv]. by apply lookup_singleton_Some in Hv as [<- _].
Defined.

Lemma Parse_override_leaves_container_nil_witness :
  parseField asciiToLower asciiTrim asciiExplode noFloat ["Foo"; "foo"]
    testEmbedOverride (fieldValue testEmbedOverride DNil) {["Foo" := [""]]}
  = Returned (fieldValue testEmbedOverride DNil, {["Foo" := [""]]}, None)
  ∧ Value_IsNil (fieldValue testEmbedOverride DNil) = true.
Proof.
  refine (proj1 (Parse_override_leaves_container_nil asciiToLower asciiTrim
                   asciiExplode noFloat)
            ["Foo"; "foo"] testEmbedOverride {["Foo" := [""]]}
            eq_refl eq_refl _ eq_refl).
  intros k [v Hv]. by apply lookup_singleton_Some in Hv as [<- _].
Defined.
